(** * Mimic: the session socket of the mobile front end

    A shallow embedding of [src/frontend/utils/socket.ts] (class [Socket]):
    the observer registry, the request correlator, the message router and
    the connection life cycle, followed by the properties of the prose
    specification that concern them.

    Conventions of the embedding.
    - A JavaScript [number] is an integer of [Z]: opcodes, request ids and
      status codes are integers of the protocol.  The one piece of
      arithmetic, [idCounter++], is the sum of IEEE 754 doubles
      ([increment]): it adds one up to [Number.MAX_SAFE_INTEGER] and leaves
      [2^53] as it is.
    - The object [this] is the record [Socket]; the transports created by
      [connect] live in a heap of [RiftSocket] objects and [this.socket] is a
      reference into it, so that two transports can be alive at once.
    - Every effect on the outside (a frame handed to a transport, a handler
      call, a console line) is appended to a trace of [Event]s.
    - Handlers are the callers' functions.  A call is an event; the only
      thing known of a handler's body is whether it raises on a given
      [Result].  Handlers are assumed not to call back into the session.
    - TypeScript's types are trusted: where the source converts a slot of
      the frame with a cast ([data[1] as number]) or relies on its declared
      type, and the value at run time has another type, the computation
      ends in [Untyped], which stands for "outside the model". *)

From stdpp Require Import gmap strings list pretty.

Local Open Scope Z_scope.
#[local] Set Warnings "-register-all".

(** ** Values *)

(** What [JSON.parse] may return ([any]), and [undefined], which reading a
    missing array slot or an omitted argument yields. *)
Inductive JSValue : Type :=
| JUndefined
| JNull
| JBool (b : bool)
| JNumber (n : Z)
| JString (s : string)
| JArray (l : list JSValue)
| JObject (l : list (string * JSValue)).

(** [interface Result { status: number; content: any }] *)
Record Result : Type := { status : Z; content : JSValue }.

Inductive JSError : Type :=
| Error (message : string)
| TypeError (message : string).

Definition message (e : JSError) : string :=
  match e with Error m => m | TypeError m => m end.

(** [(res: Result) => void], supplied by the caller of [observe]. *)
Record Handler : Type := {
  handler_name : string;
  handler_raises : Result -> option JSError
}.

(** A [RegExp] without the [g] and [y] flags: [test] has no state. *)
Record RegExp : Type := { source : string; test : string -> bool }.

(** [string | RegExp] *)
Inductive Matcher : Type :=
| MString (s : string)
| MRegExp (r : RegExp).

(** An element of [observers]. *)
Record Observer : Type := { matcher : Matcher; handler : Handler }.

(** ** The transport objects *)

(** A handler slot of a transport. *)
Inductive Slot : Type := Onopen | Onmessage | Onclose.

(** A [RiftSocket] as far as [Socket] touches it: the code it was built
    with, the three handler slots ([true]: the function that [connect]
    assigns is installed; [false]: the slot is unset or [null]),
    [readyState], and whether [close()] has been called on it. *)
Record RiftSocket : Type := {
  rs_code : string;
  onopen : bool;
  onmessage : bool;
  onclose : bool;
  readyState : Z;
  closed : bool
}.

(** [WebSocket.OPEN] *)
Definition WebSocket_OPEN : Z := 1.

(** ** Promises *)

Inductive PromiseState : Type :=
| Pending
| Fulfilled (r : Result)
| Rejected (e : JSError).

(** A promise made by [request], with the handlers chained on it by
    [.then(handler)]. *)
Record Promise : Type := { pstate : PromiseState; reactions : list Handler }.

(** ** The session object *)

Record Socket : Type := {
  connected : bool;
  connecting : bool;
  socket : option nat;
  computerName : string;
  computerVersion : string;
  pushNotificationSubscriptionToken : string;
  code : string;
  idCounter : Z;
  observers : list Observer;
  requests : gmap Z nat
}.

(** [new Socket()] *)
Definition initial_Socket : Socket := {|
  connected := false;
  connecting := false;
  socket := None;
  computerName := "";
  computerVersion := "";
  pushNotificationSubscriptionToken := "";
  code := "";
  idCounter := 0;
  observers := [];
  requests := ∅
|}.

Definition set_connected (b : bool) (s : Socket) : Socket :=
  {| connected := b; connecting := connecting s; socket := socket s;
     computerName := computerName s; computerVersion := computerVersion s;
     pushNotificationSubscriptionToken := pushNotificationSubscriptionToken s;
     code := code s; idCounter := idCounter s; observers := observers s;
     requests := requests s |}.

Definition set_connecting (b : bool) (s : Socket) : Socket :=
  {| connected := connected s; connecting := b; socket := socket s;
     computerName := computerName s; computerVersion := computerVersion s;
     pushNotificationSubscriptionToken := pushNotificationSubscriptionToken s;
     code := code s; idCounter := idCounter s; observers := observers s;
     requests := requests s |}.

Definition set_socket (t : option nat) (s : Socket) : Socket :=
  {| connected := connected s; connecting := connecting s; socket := t;
     computerName := computerName s; computerVersion := computerVersion s;
     pushNotificationSubscriptionToken := pushNotificationSubscriptionToken s;
     code := code s; idCounter := idCounter s; observers := observers s;
     requests := requests s |}.

Definition set_computerName (n : string) (s : Socket) : Socket :=
  {| connected := connected s; connecting := connecting s; socket := socket s;
     computerName := n; computerVersion := computerVersion s;
     pushNotificationSubscriptionToken := pushNotificationSubscriptionToken s;
     code := code s; idCounter := idCounter s; observers := observers s;
     requests := requests s |}.

Definition set_computerVersion (v : string) (s : Socket) : Socket :=
  {| connected := connected s; connecting := connecting s; socket := socket s;
     computerName := computerName s; computerVersion := v;
     pushNotificationSubscriptionToken := pushNotificationSubscriptionToken s;
     code := code s; idCounter := idCounter s; observers := observers s;
     requests := requests s |}.

Definition set_pushNotificationSubscriptionToken (k : string) (s : Socket) : Socket :=
  {| connected := connected s; connecting := connecting s; socket := socket s;
     computerName := computerName s; computerVersion := computerVersion s;
     pushNotificationSubscriptionToken := k;
     code := code s; idCounter := idCounter s; observers := observers s;
     requests := requests s |}.

Definition set_code (c : string) (s : Socket) : Socket :=
  {| connected := connected s; connecting := connecting s; socket := socket s;
     computerName := computerName s; computerVersion := computerVersion s;
     pushNotificationSubscriptionToken := pushNotificationSubscriptionToken s;
     code := c; idCounter := idCounter s; observers := observers s;
     requests := requests s |}.

Definition set_idCounter (n : Z) (s : Socket) : Socket :=
  {| connected := connected s; connecting := connecting s; socket := socket s;
     computerName := computerName s; computerVersion := computerVersion s;
     pushNotificationSubscriptionToken := pushNotificationSubscriptionToken s;
     code := code s; idCounter := n; observers := observers s;
     requests := requests s |}.

Definition set_observers (l : list Observer) (s : Socket) : Socket :=
  {| connected := connected s; connecting := connecting s; socket := socket s;
     computerName := computerName s; computerVersion := computerVersion s;
     pushNotificationSubscriptionToken := pushNotificationSubscriptionToken s;
     code := code s; idCounter := idCounter s; observers := l;
     requests := requests s |}.

Definition set_requests (m : gmap Z nat) (s : Socket) : Socket :=
  {| connected := connected s; connecting := connecting s; socket := socket s;
     computerName := computerName s; computerVersion := computerVersion s;
     pushNotificationSubscriptionToken := pushNotificationSubscriptionToken s;
     code := code s; idCounter := idCounter s; observers := observers s;
     requests := m |}.

(** ** The world: the session, the heap, the job queue and the trace *)

Inductive Event : Type :=
| Send (t : nat) (text : string)          (* this.socket.send(text) *)
| Invoke (h : Handler) (r : Result)       (* a handler is called *)
| Resolve (p : nat) (r : Result)          (* a stored resolve is called *)
| Log (line : string)                     (* console.log *)
| WithComputerConfig (name : string)      (* config.name = computerName *)
| Detach (t : nat) (k : Slot)             (* a handler slot is set to null *)
| CloseTransport (t : nat).               (* socket.close() *)

Record World : Type := {
  this : Socket;
  heap : list RiftSocket;
  promises : list Promise;
  microtasks : list (Handler * Result);
  trace : list Event
}.

Definition initial_World : World :=
  {| this := initial_Socket; heap := []; promises := []; microtasks := [];
     trace := [] |}.

Definition upd_this (f : Socket -> Socket) (w : World) : World :=
  {| this := f (this w); heap := heap w; promises := promises w;
     microtasks := microtasks w; trace := trace w |}.

Definition upd_heap (f : list RiftSocket -> list RiftSocket) (w : World) : World :=
  {| this := this w; heap := f (heap w); promises := promises w;
     microtasks := microtasks w; trace := trace w |}.

Definition upd_promises (f : list Promise -> list Promise) (w : World) : World :=
  {| this := this w; heap := heap w; promises := f (promises w);
     microtasks := microtasks w; trace := trace w |}.

Definition upd_microtasks
    (f : list (Handler * Result) -> list (Handler * Result)) (w : World) : World :=
  {| this := this w; heap := heap w; promises := promises w;
     microtasks := f (microtasks w); trace := trace w |}.

Definition record (e : Event) (w : World) : World :=
  {| this := this w; heap := heap w; promises := promises w;
     microtasks := microtasks w; trace := trace w ++ [e] |}.

(** The frames handed to transport [t], oldest first. *)
Definition outbox (t : nat) (tr : list Event) : list string :=
  omap (fun e => match e with
                 | Send t' text => if decide (t' = t) then Some text else None
                 | _ => None
                 end) tr.

(** ** Computations *)

Inductive Outcome (A : Type) : Type :=
| Returns (a : A) (w : World)
| Throws (e : JSError) (w : World)
| Untyped.
Arguments Returns {A} a w.
Arguments Throws {A} e w.
Arguments Untyped {A}.

Definition M (A : Type) : Type := World -> Outcome A.

Definition ret {A} (a : A) : M A := fun w => Returns a w.

Definition bind {A B} (m : M A) (k : A -> M B) : M B :=
  fun w => match m w with
           | Returns a w' => k a w'
           | Throws e w' => Throws e w'
           | Untyped => Untyped
           end.

Notation "x <- m ;; k" := (bind m (fun x => k))
  (at level 20, m at level 99, k at level 200, only parsing).
Notation "m ;; k" := (bind m (fun _ => k))
  (at level 100, k at level 200, right associativity, only parsing).

Definition throw {A} (e : JSError) : M A := fun w => Throws e w.
Definition untyped {A} : M A := fun _ => Untyped.
Definition get_this : M Socket := fun w => Returns (this w) w.
Definition modify (f : Socket -> Socket) : M unit := fun w => Returns tt (upd_this f w).
Definition emit (e : Event) : M unit := fun w => Returns tt (record e w).

(** [try { m } catch (e) { h e }] *)
Definition try_catch {A} (m : M A) (h : JSError -> M A) : M A :=
  fun w => match m w with
           | Throws e w' => h e w'
           | o => o
           end.

(** [l.forEach(f)] *)
Fixpoint forEach {A} (f : A -> M unit) (l : list A) : M unit :=
  match l with
  | [] => ret tt
  | x :: l' => f x ;; forEach f l'
  end.

(** [l.filter(p)], the predicate being a computation. *)
Fixpoint filterM {A} (p : A -> M bool) (l : list A) : M (list A) :=
  match l with
  | [] => ret []
  | x :: l' =>
      keep <- p x ;;
      rest <- filterM p l' ;;
      ret (if keep : bool then x :: rest else rest)
  end.

(** Casts and coercions on a slot of a frame. *)
Definition as_string (v : JSValue) : M string :=
  match v with JString s => ret s | _ => untyped end.

Definition as_number (v : JSValue) : M Z :=
  match v with JNumber n => ret n | _ => untyped end.

(** [+v] *)
Definition unary_plus (v : JSValue) : M Z :=
  match v with JNumber n => ret n | _ => untyped end.

(** [data = JSON.parse(..)] at the tuple type [WebsocketMessage]. *)
Definition as_tuple (v : JSValue) : M (list JSValue) :=
  match v with JArray l => ret l | _ => untyped end.

(** [data[i]] *)
Definition index (data : list JSValue) (i : nat) : JSValue :=
  nth i data JUndefined.

(** [v === n] for a number [n], [v === s] for a string [s]. *)
Definition strict_eq_number (v : JSValue) (n : Z) : bool :=
  match v with JNumber m => bool_decide (m = n) | _ => false end.

Definition strict_eq_string (v : JSValue) (s : string) : bool :=
  match v with JString s' => bool_decide (s' = s) | _ => false end.



(** [Number.MAX_SAFE_INTEGER], which is [2^53 - 1]. *)
Definition MAX_SAFE_INTEGER : Z := 9007199254740991.

(** The value that [n++] stores, [n + 1] in the arithmetic of doubles,
    for a counter that starts at [0] and changes by [++] only, so that
    [0 <= n <= 2^53].  Every integer up to [2^53] is a double and the sum
    is exact; [2^53 + 1] is not a double and lies halfway between
    [2^53] and [2^53 + 2], and the sum rounds to the even one, [2^53]:
    there the counter stops. *)
Definition increment (n : Z) : Z :=
  if bool_decide (n <= MAX_SAFE_INTEGER) then n + 1 else n.

(** ** What [socket.ts] imports *)

(** The built-ins [JSON.parse] ([None]: it throws a [SyntaxError]) and
    [JSON.stringify], and the two imports from [./rift-socket], which is
    not among the sources: the constructor of [RiftSocket] (it throws, or
    yields a transport with some initial [readyState]) and the seven
    members of the enumeration [MobileOpcode]. *)
Class Runtime : Type := {
  JSON_parse : string -> option JSValue;
  JSON_stringify : JSValue -> string;
  RiftSocket_new : string -> JSError + Z;
  SUBSCRIBE : Z;
  UNSUBSCRIBE : Z;
  REQUEST : Z;
  RESPONSE : Z;
  UPDATE : Z;
  HANDSHAKE : Z;
  HANDSHAKE_COMPLETE : Z
}.

(** The members of an enumeration have different values. *)
Definition opcodes_distinct `{Runtime} : Prop :=
  NoDup [SUBSCRIBE; UNSUBSCRIBE; REQUEST; RESPONSE; UPDATE; HANDSHAKE;
         HANDSHAKE_COMPLETE].

(** ** Promises and handlers *)

(** [new Promise(..)], before its executor runs. *)
Definition new_promise : M nat :=
  fun w => Returns (length (promises w))
             (upd_promises (fun l => l ++ [{| pstate := Pending; reactions := [] |}]) w).

(** The [resolve] function of promise [p]: the first call fulfils the
    promise and schedules its reactions; later calls do nothing. *)
Definition resolve_promise (p : nat) (r : Result) : M unit :=
  fun w => match promises w !! p with
           | Some {| pstate := Pending; reactions := hs |} =>
               Returns tt
                 (upd_microtasks (fun q => q ++ map (fun h => (h, r)) hs)
                    (upd_promises
                       (<[p := {| pstate := Fulfilled r; reactions := [] |}]>) w))
           | _ => Returns tt w
           end.

(** An executor that throws rejects its promise.  The reactions chained by
    [.then(handler)] handle fulfilment only and are dropped. *)
Definition reject_promise (p : nat) (e : JSError) : M unit :=
  fun w => match promises w !! p with
           | Some {| pstate := Pending; reactions := _ |} =>
               Returns tt
                 (upd_promises
                    (<[p := {| pstate := Rejected e; reactions := [] |}]>) w)
           | _ => Returns tt w
           end.

(** [p.then(h)] *)
Definition then_ (p : nat) (h : Handler) : M unit :=
  fun w => match promises w !! p with
           | Some {| pstate := Pending; reactions := hs |} =>
               Returns tt
                 (upd_promises
                    (<[p := {| pstate := Pending; reactions := hs ++ [h] |}]>) w)
           | Some {| pstate := Fulfilled r; reactions := _ |} =>
               Returns tt (upd_microtasks (fun q => q ++ [(h, r)]) w)
           | _ => Returns tt w
           end.

(** A synchronous call [h(r)]: an exception of the handler propagates. *)
Definition call (h : Handler) (r : Result) : M unit :=
  emit (Invoke h r) ;;
  match handler_raises h r with
  | Some e => throw e
  | None => ret tt
  end.

(** The microtasks run when the current job has finished; what a
    reaction raises rejects the promise [then] derived and goes nowhere. *)
Definition drain (w : World) : World :=
  {| this := this w; heap := heap w; promises := promises w;
     microtasks := [];
     trace := trace w ++ map (fun hr => Invoke (fst hr) (snd hr)) (microtasks w) |}.

Definition job {A} (m : M A) : M A :=
  fun w => match m w with
           | Returns a w' => Returns a (drain w')
           | Throws e w' => Throws e (drain w')
           | Untyped => Untyped
           end.

(** ** Access to the transport *)

(** [this.socket.<member>]: a [TypeError] when [this.socket] is unset. *)
Definition with_socket {A} (f : nat -> M A) : M A :=
  s <- get_this ;;
  match socket s with
  | Some t => f t
  | None => throw (TypeError "this.socket is not an object")
  end.

(** [this.socket.send(text)] *)
Definition send (text : string) : M unit :=
  with_socket (fun t => emit (Send t text)).

Definition set_slot (k : Slot) (b : bool) (rs : RiftSocket) : RiftSocket :=
  {| rs_code := rs_code rs;
     onopen := match k with Onopen => b | _ => onopen rs end;
     onmessage := match k with Onmessage => b | _ => onmessage rs end;
     onclose := match k with Onclose => b | _ => onclose rs end;
     readyState := readyState rs;
     closed := closed rs |}.

Definition set_readyState (v : Z) (rs : RiftSocket) : RiftSocket :=
  {| rs_code := rs_code rs; onopen := onopen rs; onmessage := onmessage rs;
     onclose := onclose rs; readyState := v; closed := closed rs |}.

Definition set_closed (rs : RiftSocket) : RiftSocket :=
  {| rs_code := rs_code rs; onopen := onopen rs; onmessage := onmessage rs;
     onclose := onclose rs; readyState := readyState rs; closed := true |}.

(** [this.socket.on<k> = f], [f] being the function of [connect]. *)
Definition attach (k : Slot) : M unit :=
  with_socket (fun t w => Returns tt (upd_heap (alter (set_slot k true) t) w)).

(** [this.socket.on<k> = <any>null] *)
Definition detach (k : Slot) : M unit :=
  with_socket (fun t w =>
    Returns tt (record (Detach t k) (upd_heap (alter (set_slot k false) t) w))).

(** [this.socket.close()] *)
Definition socket_close : M unit :=
  with_socket (fun t w =>
    Returns tt (record (CloseTransport t) (upd_heap (alter set_closed t) w))).

(** [this.socket && this.socket.readyState === WebSocket.OPEN] *)
Definition socket_is_open (w : World) : bool :=
  match socket (this w) with
  | Some t => match heap w !! t with
              | Some rs => bool_decide (readyState rs = WebSocket_OPEN)
              | None => false
              end
  | None => false
  end.

(** ** The methods of [Socket] *)

Section Methods.
Context `{Runtime}.

(** [JSON.stringify([MobileOpcode.REQUEST, id, path, method, body])],
    [method] defaulting to ["GET"] and an omitted [body] being
    [undefined]. *)
Definition request_frame (id : Z) (path : string) (method body : option string)
    : string :=
  JSON_stringify
    (JArray [JNumber REQUEST; JNumber id; JString path;
             JString (default "GET"%string method);
             from_option JString JUndefined body]).

(** [request(path, method = "GET", body?)].  The executor of the promise
    runs inside [new Promise]; an exception in it rejects the promise. *)
Definition request (path : string) (method body : option string) : M nat :=
  s <- get_this ;;
  if negb (connected s) then throw (Error "Not connected.") else
  p <- new_promise ;;
  try_catch
    (s1 <- get_this ;;
     let id := idCounter s1 in
     modify (set_idCounter (increment id)) ;;
     send (request_frame id path method body) ;;
     s2 <- get_this ;;
     modify (set_requests (<[id := p]> (requests s2))))
    (fun e => reject_promise p e) ;;
  ret p.

(** [typeof path === "string" ? path : path.source] *)
Definition path_or_source (m : Matcher) : string :=
  match m with
  | MString p => p
  | MRegExp r => source r
  end.

Definition subscribe_frame (m : Matcher) : string :=
  JSON_stringify (JArray [JNumber SUBSCRIBE; JString (path_or_source m)]).

Definition unsubscribe_frame (path : string) : string :=
  JSON_stringify (JArray [JNumber UNSUBSCRIBE; JString path]).

(** [this.request(path).then(handler)] when [path] is a string. *)
Definition bootstrap (m : Matcher) (h : Handler) : M unit :=
  match m with
  | MString p => pr <- request p None None ;; then_ pr h
  | MRegExp _ => ret tt
  end.

(** [observe(path, handler)] *)
Definition observe (path : Matcher) (h : Handler) : M unit :=
  s <- get_this ;;
  (if connected s
   then bootstrap path h ;; send (subscribe_frame path)
   else ret tt) ;;
  s' <- get_this ;;
  modify (set_observers (observers s' ++ [{| matcher := path; handler := h |}])).

(** [x.matcher !== path], [path] being a string. *)
Definition matcher_differs (m : Matcher) (path : string) : bool :=
  match m with
  | MString p => negb (bool_decide (p = path))
  | MRegExp _ => true
  end.

(** The predicate given to [filter] in [unobserve]. *)
Definition unobserve_keep (path : string) (x : Observer) : M bool :=
  if matcher_differs (matcher x) path then ret true else
  (fun w => if socket_is_open w
            then send (unsubscribe_frame path) w
            else Returns tt w) ;;
  ret false.

(** [unobserve(path)] *)
Definition unobserve (path : string) : M unit :=
  s <- get_this ;;
  kept <- filterM (unobserve_keep path) (observers s) ;;
  modify (set_observers kept).

(** The predicate given to [filter] on an UPDATE frame. *)
Definition update_matches (data : list JSValue) (x : Observer) : M bool :=
  match matcher x with
  | MString p => ret (strict_eq_string (index data 1) p)
  | MRegExp r => path <- as_string (index data 1) ;; ret (test r path)
  end.

(** The function given to [forEach] on an UPDATE frame. *)
Definition update_notify (data : list JSValue) (x : Observer) : M unit :=
  st <- unary_plus (index data 2) ;;
  call (handler x) {| status := st; content := index data 3 |}.

(** The function given to [forEach] on a HANDSHAKE_COMPLETE frame. *)
Definition populate (x : Observer) : M unit :=
  send (subscribe_frame (matcher x)) ;;
  bootstrap (matcher x) (handler x).

(** The three conditionals of [handleWebsocketMessage], in the order of
    the source; [data] is the parsed frame. *)
Definition route_update (data : list JSValue) : M unit :=
  if strict_eq_number (index data 0) UPDATE then
    s <- get_this ;;
    matching <- filterM (update_matches data) (observers s) ;;
    forEach (update_notify data) matching
  else ret tt.

Definition route_response (data : list JSValue) : M unit :=
  if strict_eq_number (index data 0) RESPONSE then
    id <- as_number (index data 1) ;;
    s <- get_this ;;
    match requests s !! id with
    | Some p =>
        st <- as_number (index data 2) ;;
        emit (Resolve p {| status := st; content := index data 3 |}) ;;
        resolve_promise p {| status := st; content := index data 3 |} ;;
        s' <- get_this ;;
        modify (set_requests (delete id (requests s')))
    | None => ret tt
    end
  else ret tt.

Definition route_handshake_complete (data : list JSValue) : M unit :=
  if strict_eq_number (index data 0) HANDSHAKE_COMPLETE then
    name <- as_string (index data 2) ;;
    emit (Log ("Connected to " +:+ name)) ;;
    token <- as_string (index data 3) ;;
    modify (set_pushNotificationSubscriptionToken token) ;;
    modify (set_computerName name) ;;
    version <- as_string (index data 1) ;;
    modify (set_computerVersion version) ;;
    s <- get_this ;;
    emit (WithComputerConfig (computerName s)) ;;
    forEach populate (observers s)
  else ret tt.

(** [handleWebsocketMessage(msg)], [msg.data] being the text received. *)
Definition handleWebsocketMessage (msg_data : string) : M unit :=
  match JSON_parse msg_data with
  | None => emit (Log (msg_data +:+ " was not valid JSON, ignoring."))
  | Some v =>
      data <- as_tuple v ;;
      route_update data ;;
      route_response data ;;
      route_handshake_complete data
  end.

(** [close()] *)
Definition close : M unit :=
  s <- get_this ;;
  match socket s with
  | Some _ =>
      detach Onopen ;;
      detach Onmessage ;;
      detach Onclose ;;
      socket_close ;;
      modify (set_socket None) ;;
      modify (set_connecting false) ;;
      modify (set_connected false)
  | None => ret tt
  end.

(** ["[" + MobileOpcode.HANDSHAKE + "]"] *)
Definition handshake_frame : string := "[" +:+ pretty HANDSHAKE +:+ "]".

(** The function assigned to [onopen]. *)
Definition on_open : M unit :=
  modify (set_connected true) ;;
  modify (set_connecting false) ;;
  send handshake_frame.

(** The function assigned to [onclose]; [reason] is [ev.reason]. *)
Definition on_close (reason : string) : M unit :=
  s <- get_this ;;
  if connecting s
  then emit (Log ("Closed unexpectedly (" +:+ reason +:+ ")"))
  else modify (set_connected false) ;;
       emit (Log "Connection to host closed.").

(** [new RiftSocket(code)], when it does not throw. *)
Definition fresh_RiftSocket (c : string) (state : Z) : RiftSocket :=
  {| rs_code := c; onopen := false; onmessage := false; onclose := false;
     readyState := state; closed := false |}.

(** [connect(code)] *)
Definition connect (c : string) : M unit :=
  modify (set_connecting true) ;;
  modify (set_code c) ;;
  match RiftSocket_new c with
  | inr state =>
      (fun w => Returns tt
         (upd_this (set_socket (Some (length (heap w))))
            (upd_heap (fun h => h ++ [fresh_RiftSocket c state]) w))) ;;
      attach Onopen ;;
      attach Onmessage ;;
      attach Onclose
  | inl e =>
      emit (Log "[-] Error during connect:") ;;
      emit (Log (message e))
  end.

(** [tryReconnect()] *)
Definition tryReconnect : M unit :=
  s <- get_this ;;
  connect (code s).

(** ** Jobs: what the application and the transports do to the session *)

Inductive TransportEvent : Type :=
| OpenEvent
| MessageEvent (data : string)
| CloseEvent (reason : string).

(** Transport [t] fires an event: the function in the slot, if any, runs. *)
Definition fire (t : nat) (ev : TransportEvent) : M unit :=
  fun w =>
    match heap w !! t with
    | Some rs =>
        match ev with
        | OpenEvent => if onopen rs then on_open w else Returns tt w
        | MessageEvent d =>
            if onmessage rs then handleWebsocketMessage d w else Returns tt w
        | CloseEvent r => if onclose rs then on_close r w else Returns tt w
        end
    | None => Returns tt w
    end.

Inductive Op : Type :=
| Observe (path : Matcher) (h : Handler)
| Unobserve (path : string)
| Request (path : string) (method body : option string)
| Close
| Connect (c : string)
| TryReconnect
| Fire (t : nat) (ev : TransportEvent)
| ReadyStateChange (t : nat) (v : Z).

Definition run (o : Op) : M unit :=
  match o with
  | Observe path h => observe path h
  | Unobserve path => unobserve path
  | Request path method body => request path method body ;; ret tt
  | Close => close
  | Connect c => connect c
  | TryReconnect => tryReconnect
  | Fire t ev => fire t ev
  | ReadyStateChange t v =>
      fun w => Returns tt (upd_heap (alter (set_readyState v) t) w)
  end.

(** One job of the event loop: the operation, then the microtasks. *)
Definition step (o : Op) : M unit := job (run o).

End Methods.

(** ** The getters of [Socket] *)

(** What the getters read of a transport: its members [ping] ([None]
    stands for [null] and [undefined]) and [state], and the member
    [DISCONNECTED] of the enumeration [RiftSocketState]; [./rift-socket]
    declares them. *)
Class TransportView : Type := {
  ping_of : nat -> option Z;
  state_of : nat -> Z;
  DISCONNECTED : Z
}.

Section Getters.
Context `{TransportView}.

(** [get ping()]: [this.socket?.ping ?? -1] *)
Definition ping (w : World) : Z :=
  match socket (this w) with
  | Some t => default (-1) (ping_of t)
  | None => -1
  end.

(** [get state()]; [None] is [null]. *)
Definition state (w : World) : option Z :=
  match socket (this w) with
  | None => None
  | Some t =>
      if bool_decide (state_of t = DISCONNECTED) then None
      else Some (state_of t)
  end.

End Getters.

(** ** A runtime to run the model on *)

(** The character [U+0022]. *)
Definition dquote : string :=
  String (Ascii.Ascii false true false false false true false false) EmptyString.

(** A printer of values in the manner of [JSON.stringify], without the
    escaping of special characters inside strings. *)
Fixpoint sample_stringify (v : JSValue) : string :=
  match v with
  | JUndefined => "null"
  | JNull => "null"
  | JBool b => if b then "true" else "false"
  | JNumber n => pretty n
  | JString s => dquote +:+ s +:+ dquote
  | JArray l =>
      "[" +:+
      (fix elements (l : list JSValue) : string :=
         match l with
         | [] => ""
         | x :: l' =>
             sample_stringify x +:+
             match l' with [] => "" | _ => "," +:+ elements l' end
         end) l +:+ "]"
  | JObject l =>
      "{" +:+
      (fix members (l : list (string * JSValue)) : string :=
         match l with
         | [] => ""
         | (k, x) :: l' =>
             dquote +:+ k +:+ dquote +:+ ":" +:+ sample_stringify x +:+
             match l' with [] => "" | _ => "," +:+ members l' end
         end) l +:+ "}"
  end.

(** A parser that knows the texts of the values in [known]. *)
Definition sample_parse (known : list JSValue) (text : string) : option JSValue :=
  List.find (fun v => bool_decide (sample_stringify v = text)) known.

(** A runtime for the examples.  Its constructor of transports refuses
    the empty code; the values of the opcodes are an arbitrary choice of
    seven different numbers. *)
Definition sample_runtime (known : list JSValue) : Runtime := {|
  JSON_parse := sample_parse known;
  JSON_stringify := sample_stringify;
  RiftSocket_new := fun c => if bool_decide (c = ""%string)
                             then inl (Error "no code") else inr 0;
  SUBSCRIBE := 1;
  UNSUBSCRIBE := 2;
  REQUEST := 3;
  RESPONSE := 4;
  UPDATE := 5;
  HANDSHAKE := 6;
  HANDSHAKE_COMPLETE := 7
|}.

(** Runs a list of jobs, an exception of one job not stopping the next. *)
Fixpoint run_jobs `{Runtime} (os : list Op) (w : World) : option World :=
  match os with
  | [] => Some w
  | o :: os' =>
      match step o w with
      | Returns _ w' => run_jobs os' w'
      | Throws _ w' => run_jobs os' w'
      | Untyped => None
      end
  end.

(** ** The vocabulary of the properties *)

(** [records es w]: the world [w] after the events [es]. *)
Definition records (es : list Event) (w : World) : World :=
  {| this := this w; heap := heap w; promises := promises w;
     microtasks := microtasks w; trace := trace w ++ es |}.

(** [m] keeps [I], whether it returns or throws. *)
Definition preserves {A} (I : World -> Prop) (m : M A) : Prop :=
  forall w, I w ->
    match m w with
    | Returns _ w' => I w'
    | Throws _ w' => I w'
    | Untyped => True
    end.


Section Vocabulary.
Context `{Runtime}.

(** What [close()] leaves of a transport. *)
Definition closed_RiftSocket (rs : RiftSocket) : RiftSocket :=
  {| rs_code := rs_code rs; onopen := false; onmessage := false;
     onclose := false; readyState := readyState rs; closed := true |}.

(** The matcher accepts [path]: a string matcher when it is equal to
    [path], a pattern when its test accepts [path]. *)
Definition accepts (path : string) (m : Matcher) : bool :=
  match m with
  | MString p => bool_decide (path = p)
  | MRegExp r => test r path
  end.

(** The observers that [unobserve path] removes. *)
Definition removed_by (path : string) (l : list Observer) : list Observer :=
  List.filter (fun x => negb (matcher_differs (matcher x) path)) l.

(** The observers that [unobserve path] keeps. *)
Definition kept_by (path : string) (l : list Observer) : list Observer :=
  List.filter (fun x => matcher_differs (matcher x) path) l.

(** [inv c0 w]: the transport of the session and every transport a frame
    was handed to are allocated; every pending request has an id below
    [idCounter], unless the counter has stopped at [2^53]; and
    [idCounter] is at least [c0] and at most [2^53]. *)
Record inv (c0 : Z) (w : World) : Prop := {
  inv_socket : forall t, socket (this w) = Some t -> (t < length (heap w))%nat;
  inv_sent : forall t text, Send t text ∈ trace w -> (t < length (heap w))%nat;
  inv_pending : forall id p, requests (this w) !! id = Some p ->
    id < idCounter (this w) \/ MAX_SAFE_INTEGER < idCounter (this w);
  inv_counter : c0 <= idCounter (this w);
  inv_exact : idCounter (this w) <= MAX_SAFE_INTEGER + 1
}.

Definition is_Send (e : Event) : bool :=
  match e with Send _ _ => true | _ => false end.

(** The world after a call of [request] on a connected session that owns
    transport [t]. *)
Definition after_request (t : nat) (path : string) (method body : option string)
    (w : World) : World :=
  upd_this
    (set_requests (<[idCounter (this w) := length (promises w)]> (requests (this w))))
    (record (Send t (request_frame (idCounter (this w)) path method body))
       (upd_this (set_idCounter (increment (idCounter (this w))))
          (upd_promises (fun l => l ++ [{| pstate := Pending; reactions := [] |}]) w))).

(** The world after [connect(c)] when the constructor yields a transport
    with initial state [state]: the new transport is the next of the
    heap, with the three handlers installed. *)
Definition after_connect (c : string) (state : Z) (w : World) : World :=
  {| this := set_socket (Some (length (heap w)))
               (set_code c (set_connecting true (this w)));
     heap := heap w ++ [{| rs_code := c; onopen := true; onmessage := true;
                           onclose := true; readyState := state;
                           closed := false |}];
     promises := promises w;
     microtasks := microtasks w;
     trace := trace w |}.

(** The worlds that a sequence of jobs leads to from the initial one; a
    job that throws leaves its world to the next job. *)
Inductive reachable : World -> Prop :=
| reachable_initial : reachable initial_World
| reachable_returns o w w' :
    reachable w -> step o w = Returns tt w' -> reachable w'
| reachable_throws o w e w' :
    reachable w -> step o w = Throws e w' -> reachable w'.

(** The frames of a replay of the observers [l], the next request id
    being [c] and the ids used being safe integers: for each observer its
    SUBSCRIBE frame, followed for a string matcher by the REQUEST frame of
    its bootstrap request. *)
Fixpoint replay_frames (c : Z) (l : list Observer) : list string :=
  match l with
  | [] => []
  | x :: l' =>
      match matcher x with
      | MString p =>
          subscribe_frame (MString p) :: request_frame c p None None
            :: replay_frames (c + 1) l'
      | MRegExp r => subscribe_frame (MRegExp r) :: replay_frames c l'
      end
  end.

(** The handlers of the observers with a string matcher, in order. *)
Definition exact_handlers (l : list Observer) : list Handler :=
  omap (fun x => match matcher x with
                 | MString _ => Some (handler x)
                 | MRegExp _ => None
                 end) l.

(** The pending requests after the replay: the [k]-th observer with a
    string matcher has the id [c + k] and the promise [n + k]. *)
Fixpoint replay_requests (c : Z) (n : nat) (l : list Observer)
    (m : gmap Z nat) : gmap Z nat :=
  match l with
  | [] => m
  | x :: l' =>
      match matcher x with
      | MString _ => replay_requests (c + 1) (S n) l' (<[c := n]> m)
      | MRegExp _ => replay_requests c n l' m
      end
  end.

Definition replay_promises (l : list Observer) : list Promise :=
  map (fun h => {| pstate := Pending; reactions := [h] |}) (exact_handlers l).

(** The world after the replay of [l] on transport [t], the ids used
    being safe integers. *)
Definition after_replay (t : nat) (l : list Observer) (w : World) : World :=
  {| this :=
       set_requests
         (replay_requests (idCounter (this w)) (length (promises w)) l
            (requests (this w)))
         (set_idCounter
            (idCounter (this w) + Z.of_nat (length (exact_handlers l)))
            (this w));
     heap := heap w;
     promises := promises w ++ replay_promises l;
     microtasks := microtasks w;
     trace := trace w ++ map (Send t) (replay_frames (idCounter (this w)) l) |}.

(** The session after the identity fields of the frame are recorded. *)
Definition with_identity (version name token : string) (w : World) : World :=
  record (WithComputerConfig name)
    (upd_this (set_computerVersion version)
       (upd_this (set_computerName name)
          (upd_this (set_pushNotificationSubscriptionToken token)
             (record (Log ("Connected to " +:+ name)) w)))).

(** The ids of the pending requests. *)
Definition pending_ids (w : World) : list Z :=
  (map_to_list (requests (this w))).*1.





End Vocabulary.

(** The distinct matchers among the observers that [unobserve path]
    removes. *)
Definition distinct_removed (path : string) (l : list Observer) : list string :=
  remove_dups
    (omap (fun x => match matcher x with
                    | MString p => Some p
                    | MRegExp _ => None
                    end) (removed_by path l)).

Definition h1 : Handler :=
  {| handler_name := "h1"; handler_raises := fun _ => None |}.
Definition h2 : Handler :=
  {| handler_name := "h2"; handler_raises := fun _ => None |}.
Definition h3 : Handler :=
  {| handler_name := "h3"; handler_raises := fun _ => Some (Error "h3") |}.

(** A pattern that accepts the paths starting with [/a]. *)
Definition starts_with_a : RegExp :=
  {| source := "^/a"; test := String.prefix "/a" |}.

Definition sample_update : JSValue :=
  JArray [JNumber 5; JString "/a"; JNumber 200; JNull].
Definition sample_response : JSValue :=
  JArray [JNumber 4; JNumber 0; JNumber 200; JBool true].
Definition sample_handshake_complete : JSValue :=
  JArray [JNumber 7; JString "1.0"; JString "pc"; JString "tok"].

(** The runtime of the examples: its parser knows the three frames
    above. *)
Definition sample : Runtime :=
  sample_runtime [sample_update; sample_response; sample_handshake_complete].

(** The world that the jobs [os] lead to from the initial one, on the
    runtime [sample]. *)
Definition the_world (os : list Op) : World :=
  default initial_World (@run_jobs sample os initial_World).

(** A session that is connected over transport [0], whose [readyState]
    is OPEN. *)
Definition connected_session : list Op :=
  [Connect "c"; ReadyStateChange 0 1; Fire 0 OpenEvent].

(** Three observers are registered on the connected session: a string
    matcher, a pattern, and a string matcher whose handler raises. *)
Definition observing_session : list Op :=
  connected_session ++
  [Observe (MString "/a") h1; Observe (MRegExp starts_with_a) h2;
   Observe (MString "/b") h3].

(** The observers are registered before the session connects. *)
Definition late_session : list Op :=
  [Observe (MString "/a") h1; Observe (MRegExp starts_with_a) h2;
   Observe (MString "/b") h3; Connect "c"; Fire 0 OpenEvent].

(** Two observers are registered on the same path. *)
Definition doubled_session : list Op :=
  connected_session ++
  [Observe (MString "/a") h1; Observe (MRegExp starts_with_a) h2;
   Observe (MString "/a") h3].

(** A session that reconnects without closing: transport [0] is replaced
    by transport [1], which opens; then transport [0] closes, and its
    close handler, still installed, clears [connected]. *)
Definition superseded_session : list Op :=
  [Observe (MString "/a") h1; Observe (MString "/b") h2;
   Connect "a"; Fire 0 OpenEvent; Connect "b"; Fire 1 OpenEvent;
   Fire 0 (CloseEvent "timeout")].

(** A connected session that reconnects: [connected] is still true and
    [this.socket] is the new transport, which is not open yet. *)
Definition reconnecting_session : list Op :=
  connected_session ++ [Observe (MString "/a") h1; Connect "d"].

(** ** The vocabulary of the further properties *)

(** The world after [observe(path, h)] on a connected session that owns
    transport [t], [path] being a string: the bootstrap request, the
    handler chained on its promise, the SUBSCRIBE frame, the observer. *)
Definition after_observe_string `{Runtime} (t : nat) (p : string) (h : Handler)
    (w : World) : World :=
  upd_this
    (set_observers (observers (this w) ++ [{| matcher := MString p; handler := h |}]))
    (record (Send t (subscribe_frame (MString p)))
       (upd_promises
          (fun _ => promises w ++ [{| pstate := Pending; reactions := [h] |}])
          (after_request t p None None w))).

(** Every pending request refers to a promise that is still pending, and
    no two pending requests share a promise. *)
Record pending_promises_ok (w : World) : Prop := {
  ppo_pending : forall id p, requests (this w) !! id = Some p ->
    exists hs, promises w !! p = Some {| pstate := Pending; reactions := hs |};
  ppo_injective : forall id id' p,
    requests (this w) !! id = Some p -> requests (this w) !! id' = Some p ->
    id = id'
}.

(** The jobs that are calls of [observe] or [unobserve]. *)
Definition is_registration (o : Op) : bool :=
  match o with
  | Observe _ _ | Unobserve _ => true
  | _ => false
  end.


(** The UNSUBSCRIBE frames of [unobserve path]: one per removed observer
    when [this.socket] is set and open, none otherwise. *)
Definition unsubscribe_events `{Runtime} (path : string) (w : World) : list Event :=
  match socket (this w) with
  | Some t =>
      if socket_is_open w
      then map (fun _ => Send t (unsubscribe_frame path))
               (removed_by path (observers (this w)))
      else []
  | None => []
  end.


(** What a replay of the observers cannot change of the session. *)
Definition replay_frame_fields (s : Socket)
    : bool * bool * option nat * string * list Observer * (string * string * string) :=
  (connected s, connecting s, socket s, code s, observers s,
   (computerVersion s, computerName s, pushNotificationSubscriptionToken s)).

(** A transport whose three handler slots hold the functions of
    [connect] and on which [close()] was not called; and a transport
    that [close()] has left. *)
Definition live (rs : RiftSocket) : Prop :=
  closed rs = false /\ onopen rs = true /\ onmessage rs = true /\ onclose rs = true.

Definition silent (rs : RiftSocket) : Prop :=
  closed rs = true /\ onopen rs = false /\ onmessage rs = false /\ onclose rs = false.

(** The transport that the session owns is allocated and live, and every
    transport is live or silent. *)
Record transports_ok (w : World) : Prop := {
  tok_owned : forall t, socket (this w) = Some t ->
    exists rs, heap w !! t = Some rs /\ live rs;
  tok_each : forall t rs, heap w !! t = Some rs -> live rs \/ silent rs
}.

(** The SUBSCRIBE frames of the observers [l], in order, as events of
    transport [t]. *)
Definition subscribe_events `{Runtime} (t : nat) (l : list Observer) : list Event :=
  map (fun y => Send t (subscribe_frame (matcher y))) l.

(** ** Further sessions to run the model on *)

(** A frame with an opcode that the router does not handle, and a
    runtime whose parser knows it. *)
Definition stray_frame : JSValue := JArray [JNumber 1; JString "/a"].

Definition stray : Runtime := sample_runtime [stray_frame].

(** The first observer of the path [/a] has a handler that raises; a
    pattern that accepts [/a] is registered after it. *)
Definition raising_session : list Op :=
  connected_session ++
  [Observe (MString "/a") h3; Observe (MRegExp starts_with_a) h2].

(** A pattern and two string matchers are registered, and the transport
    has not opened yet. *)
Definition unopened_session : list Op :=
  [Observe (MRegExp starts_with_a) h2; Observe (MString "/a") h1;
   Observe (MString "/b") h1; Connect "c"].

(** [connect] is called twice without a [close()] in between. *)
Definition replaced_session : list Op := [Connect "a"; Connect "b"].

(** Then [close()] releases the second transport: the session owns
    none, and the first still has its handlers. *)
Definition released_session : list Op := replaced_session ++ [Close].



(** A view of the transports on which every transport is disconnected
    and reports a ping of 20. *)
Definition sample_view : TransportView :=
  {| ping_of := fun _ => Some 20; state_of := fun _ => 0; DISCONNECTED := 0 |}.

(** ** Reasoning about computations *)

Lemma sample_opcodes_distinct known : @opcodes_distinct (sample_runtime known).
Proof. unfold opcodes_distinct; simpl. apply (bool_decide_unpack _). reflexivity. Qed.

Lemma increment_safe n : n <= MAX_SAFE_INTEGER -> increment n = n + 1.
Proof. intros Hn. unfold increment. by rewrite bool_decide_eq_true_2. Qed.

Lemma increment_stopped n : MAX_SAFE_INTEGER < n -> increment n = n.
Proof. intros Hn. unfold increment. rewrite bool_decide_eq_false_2; [done|lia]. Qed.

Lemma increment_le n : n <= increment n.
Proof. unfold increment. case_bool_decide; lia. Qed.

Lemma increment_exact n :
  n <= MAX_SAFE_INTEGER + 1 -> increment n <= MAX_SAFE_INTEGER + 1.
Proof. unfold increment. case_bool_decide; lia. Qed.

Lemma record_records e w : record e w = records [e] w.
Proof. reflexivity. Qed.

Lemma records_nil w : records [] w = w.
Proof. destruct w; unfold records; simpl. by rewrite app_nil_r. Qed.

Lemma records_records es1 es2 w :
  records es2 (records es1 w) = records (es1 ++ es2) w.
Proof. unfold records; simpl. by rewrite app_assoc. Qed.

Lemma preserves_ret {A} I (a : A) : preserves I (ret a).
Proof. intros w Hw. exact Hw. Qed.

Lemma preserves_throw {A} I e : preserves I (@throw A e).
Proof. intros w Hw. exact Hw. Qed.

Lemma preserves_untyped {A} I : preserves I (@untyped A).
Proof. intros w Hw. exact Logic.I. Qed.

Lemma preserves_bind {A B} I (m : M A) (k : A -> M B) :
  preserves I m -> (forall a, preserves I (k a)) -> preserves I (bind m k).
Proof.
  intros Hm Hk w Hw. unfold bind. specialize (Hm w Hw).
  destruct (m w) as [a w'| |]; auto. by apply Hk.
Qed.

Lemma preserves_get_this {B} I (k : Socket -> M B) :
  (forall w, I w -> match k (this w) w with
                    | Returns _ w' => I w'
                    | Throws _ w' => I w'
                    | Untyped => True
                    end) ->
  preserves I (bind get_this k).
Proof. intros Hk w Hw. unfold bind, get_this. by apply Hk. Qed.

Lemma preserves_try_catch {A} I (m : M A) (h : JSError -> M A) :
  preserves I m -> (forall e, preserves I (h e)) -> preserves I (try_catch m h).
Proof.
  intros Hm Hh w Hw. unfold try_catch. specialize (Hm w Hw).
  destruct (m w) as [a w'|e w'|]; auto. by apply Hh.
Qed.

Lemma preserves_forEach {A} I (f : A -> M unit) (l : list A) :
  (forall x, preserves I (f x)) -> preserves I (forEach f l).
Proof.
  intros Hf. induction l as [|x l IH]; simpl.
  - apply preserves_ret.
  - apply preserves_bind; auto.
Qed.

Lemma preserves_filterM {A} I (p : A -> M bool) (l : list A) :
  (forall x, preserves I (p x)) -> preserves I (filterM p l).
Proof.
  intros Hp. induction l as [|x l IH]; simpl.
  - apply preserves_ret.
  - apply preserves_bind; auto. intros keep.
    apply preserves_bind; auto. intros rest. apply preserves_ret.
Qed.

Lemma preserves_as_string I v : preserves I (as_string v).
Proof. destruct v; first [apply preserves_ret | apply preserves_untyped]. Qed.

Lemma preserves_as_number I v : preserves I (as_number v).
Proof. destruct v; first [apply preserves_ret | apply preserves_untyped]. Qed.

Lemma preserves_unary_plus I v : preserves I (unary_plus v).
Proof. destruct v; first [apply preserves_ret | apply preserves_untyped]. Qed.

Lemma preserves_as_tuple I v : preserves I (as_tuple v).
Proof. destruct v; first [apply preserves_ret | apply preserves_untyped]. Qed.

(** Stepping through a sequence. *)
Lemma bind_returns {A B} (m : M A) (k : A -> M B) w a w' :
  m w = Returns a w' -> bind m k w = k a w'.
Proof. intros Hm. unfold bind. by rewrite Hm. Qed.

Lemma bind_throws {A B} (m : M A) (k : A -> M B) w e w' :
  m w = Throws e w' -> bind m k w = Throws e w'.
Proof. intros Hm. unfold bind. by rewrite Hm. Qed.

Lemma bind_bind {A B C} (m : M A) (k : A -> M B) (k' : B -> M C) w :
  bind (bind m k) k' w = bind m (fun a => bind (k a) k') w.
Proof. unfold bind. by destruct (m w). Qed.

Lemma bind_ret {A B} (a : A) (k : A -> M B) w : bind (ret a) k w = k a w.
Proof. reflexivity. Qed.

Lemma bind_get_this {B} (k : Socket -> M B) w :
  bind get_this k w = k (this w) w.
Proof. reflexivity. Qed.

Lemma bind_modify {B} f (k : unit -> M B) w :
  bind (modify f) k w = k tt (upd_this f w).
Proof. reflexivity. Qed.

Lemma bind_emit {B} e (k : unit -> M B) w :
  bind (emit e) k w = k tt (record e w).
Proof. reflexivity. Qed.

Lemma try_catch_returns {A} (m : M A) h w a w' :
  m w = Returns a w' -> try_catch m h w = Returns a w'.
Proof. intros Hm. unfold try_catch. by rewrite Hm. Qed.

Lemma try_catch_throws {A} (m : M A) h w e w' :
  m w = Throws e w' -> try_catch m h w = h e w'.
Proof. intros Hm. unfold try_catch. by rewrite Hm. Qed.

Lemma bind_new_promise {B} (k : nat -> M B) w :
  bind new_promise k w
    = k (length (promises w))
        (upd_promises (fun l => l ++ [{| pstate := Pending; reactions := [] |}]) w).
Proof. reflexivity. Qed.

Ltac run1 :=
  first [ rewrite bind_bind | rewrite bind_ret | rewrite bind_get_this
        | rewrite bind_modify | rewrite bind_emit ]; cbv beta.
Ltac run := repeat run1.

Lemma with_socket_eq {A} (f : nat -> M A) w t :
  socket (this w) = Some t -> with_socket f w = f t w.
Proof. intros Ht. unfold with_socket. rewrite bind_get_this. by rewrite Ht. Qed.

Lemma send_eq text w t :
  socket (this w) = Some t -> send text w = Returns tt (record (Send t text) w).
Proof. intros Ht. unfold send. by rewrite (with_socket_eq _ w t Ht). Qed.

Lemma send_unset text w :
  socket (this w) = None ->
  send text w = Throws (TypeError "this.socket is not an object") w.
Proof.
  intros Ht. unfold send, with_socket. rewrite bind_get_this. by rewrite Ht.
Qed.

Lemma detach_eq k w t :
  socket (this w) = Some t ->
  detach k w
    = Returns tt (record (Detach t k) (upd_heap (alter (set_slot k false) t) w)).
Proof. intros Ht. unfold detach. by rewrite (with_socket_eq _ w t Ht). Qed.

Lemma attach_eq k w t :
  socket (this w) = Some t ->
  attach k w = Returns tt (upd_heap (alter (set_slot k true) t) w).
Proof. intros Ht. unfold attach. by rewrite (with_socket_eq _ w t Ht). Qed.

Lemma socket_close_eq w t :
  socket (this w) = Some t ->
  socket_close w
    = Returns tt (record (CloseTransport t) (upd_heap (alter set_closed t) w)).
Proof. intros Ht. unfold socket_close. by rewrite (with_socket_eq _ w t Ht). Qed.

(** ** Properties of the session *)

Section Properties.
Context `{Runtime}.

Lemma incoming_opcodes_differ :
  opcodes_distinct ->
  UPDATE <> RESPONSE /\ UPDATE <> HANDSHAKE_COMPLETE /\
  RESPONSE <> HANDSHAKE_COMPLETE.
Proof.
  unfold opcodes_distinct. intros Hd.
  repeat (apply NoDup_cons in Hd as [? Hd]). set_solver.
Qed.

Lemma strict_eq_number_same n : strict_eq_number (JNumber n) n = true.
Proof. simpl. by apply bool_decide_eq_true. Qed.

Lemma strict_eq_number_other n m :
  n <> m -> strict_eq_number (JNumber n) m = false.
Proof. intros Hne. simpl. by apply bool_decide_eq_false. Qed.

(** *** The request correlator refuses to work on a closed session *)

Lemma request_not_connected_eq w path method body :
  connected (this w) = false ->
  request path method body w = Throws (Error "Not connected.") w.
Proof.
  intros Hc. unfold request. rewrite bind_get_this. by rewrite Hc.
Qed.

(** C3.  For every path, method and body, [request] on a session whose
    [connected] flag is false throws synchronously: the outcome is the
    exception [Error "Not connected."], not a promise, and the world at
    the throw is the world before the call, so no frame was handed to a
    transport and no pending request was recorded. *)
Theorem request_not_connected_throws (w : World) (path : string)
    (method body : option string) :
  connected (this w) = false ->
  request path method body w = Throws (Error "Not connected.") w.
Proof. apply request_not_connected_eq. Qed.

(** *** Frames that are not JSON *)

(** C8.  A text that [JSON.parse] rejects is logged and dropped: the
    router returns normally, and the world afterwards differs from the
    world before by the console line only; the session object (flags,
    identity fields, observers, pending requests, counter) is the same. *)
Theorem malformed_frame_dropped (w : World) (text : string) :
  JSON_parse text = None ->
  handleWebsocketMessage text w
    = Returns tt (records [Log (text +:+ " was not valid JSON, ignoring.")] w)
  /\ this (records [Log (text +:+ " was not valid JSON, ignoring.")] w) = this w.
Proof.
  intros Hp. split; [|reflexivity].
  unfold handleWebsocketMessage. by rewrite Hp.
Qed.

(** *** A close event during a connection attempt *)

(** C10.  When transport [t] fires its close event while [connecting] is
    true, the installed handler logs the reason and returns: the session
    object is untouched, so [connecting] stays true, and so are the heap
    of transports and the promises; only the console line is added. *)
Theorem close_event_while_connecting (w : World) (t : nat) (rs : RiftSocket)
    (reason : string) :
  heap w !! t = Some rs ->
  onclose rs = true ->
  connecting (this w) = true ->
  fire t (CloseEvent reason) w
    = Returns tt (records [Log ("Closed unexpectedly (" +:+ reason +:+ ")")] w)
  /\ this (records [Log ("Closed unexpectedly (" +:+ reason +:+ ")")] w) = this w
  /\ connecting (this w) = true.
Proof.
  intros Ht Hon Hc. split; [|split; [reflexivity|exact Hc]].
  unfold fire. rewrite Ht, Hon. unfold on_close, bind, get_this.
  by rewrite Hc.
Qed.

(** *** Closing the session *)

(** C7.  With a transport [t] owned, [close()] sets the three handler
    slots of [t] to null, then calls [t.close()], in this order and with
    nothing else on the trace; afterwards [connecting] is false,
    [connected] is false and [this.socket] is unset, whatever they were,
    and the other fields of the session are as before.  Without a
    transport, [close()] changes nothing. *)
Theorem close_detaches_then_releases (w : World) :
  (forall t, socket (this w) = Some t ->
     exists w',
       close w = Returns tt w' /\
       trace w' = trace w ++ [Detach t Onopen; Detach t Onmessage;
                              Detach t Onclose; CloseTransport t] /\
       connecting (this w') = false /\
       connected (this w') = false /\
       socket (this w') = None /\
       this w' = set_connected false
                   (set_connecting false (set_socket None (this w))) /\
       heap w' = alter closed_RiftSocket t (heap w) /\
       promises w' = promises w /\ microtasks w' = microtasks w) /\
  (socket (this w) = None -> close w = Returns tt w).
Proof.
  split.
  - intros t Ht. unfold close. rewrite bind_get_this, Ht.
    erewrite bind_returns by (by apply detach_eq).
    erewrite bind_returns by (by apply detach_eq).
    erewrite bind_returns by (by apply detach_eq).
    erewrite bind_returns by (by apply socket_close_eq).
    rewrite !bind_modify. eexists. split; [reflexivity|]. simpl.
    repeat split.
    + by rewrite <- !app_assoc.
    + rewrite !list_alter_alter_eq. apply list_alter_ext; [|done].
      intros rs _. by destruct rs.
  - intros Hn. unfold close, bind, get_this. by rewrite Hn.
Qed.

(** *** RESPONSE frames *)

Lemma resolve_promise_frame p r w :
  exists w',
    resolve_promise p r w = Returns tt w' /\
    this w' = this w /\ heap w' = heap w /\ trace w' = trace w /\
    length (promises w') = length (promises w) /\
    (forall hs, promises w !! p = Some {| pstate := Pending; reactions := hs |} ->
       promises w' !! p = Some {| pstate := Fulfilled r; reactions := [] |} /\
       microtasks w' = microtasks w ++ map (fun h => (h, r)) hs).
Proof.
  unfold resolve_promise.
  destruct (promises w !! p) as [[[|r'|e] hs]|] eqn:Hp.
  - eexists. split; [reflexivity|]. simpl. split_and!; try done.
    + by rewrite length_insert.
    + intros hs' Hhs. inversion Hhs; subst. split; [|done].
      apply list_lookup_insert_eq. by eapply lookup_lt_Some.
  - eexists. split; [reflexivity|]. repeat split; intros; discriminate.
  - eexists. split; [reflexivity|]. repeat split; intros; discriminate.
  - eexists. split; [reflexivity|]. repeat split; intros; discriminate.
Qed.

Lemma handle_response_eq w text id st c :
  opcodes_distinct ->
  JSON_parse text = Some (JArray [JNumber RESPONSE; JNumber id; JNumber st; c]) ->
  handleWebsocketMessage text w
    = match requests (this w) !! id with
      | Some p =>
          match resolve_promise p {| status := st; content := c |}
                  (record (Resolve p {| status := st; content := c |}) w) with
          | Returns _ w1 =>
              Returns tt (upd_this (set_requests (delete id (requests (this w1)))) w1)
          | o => o
          end
      | None => Returns tt w
      end.
Proof.
  intros Hd Hp. destruct (incoming_opcodes_differ Hd) as (Hur & Huh & Hrh).
  unfold handleWebsocketMessage. rewrite Hp. simpl as_tuple. rewrite bind_ret.
  unfold route_update, route_response, route_handshake_complete, index.
  simpl nth.
  rewrite (strict_eq_number_other RESPONSE UPDATE) by congruence.
  rewrite strict_eq_number_same.
  rewrite (strict_eq_number_other RESPONSE HANDSHAKE_COMPLETE) by congruence.
  simpl as_number. run.
  destruct (requests (this w) !! id) as [p|]; [|reflexivity].
  destruct (resolve_promise_frame p {| status := st; content := c |}
              (record (Resolve p {| status := st; content := c |}) w))
    as (w1 & Hres & _).
  run. rewrite (bind_returns _ _ _ _ _ Hres). run. by rewrite Hres.
Qed.

(** C2.  A RESPONSE frame with id [id], status [st] and content [c].  If
    a request is pending under [id], with promise [p], the stored resolve
    function of [p] is called once with [{status: st, content: c}] (the
    one event added to the trace), the entry [id] is deleted and nothing
    else of the session changes; a pending promise is thereby fulfilled
    with that result.  If no request is pending under [id], the router
    returns normally and the world is exactly the world before. *)
Theorem response_completes_pending_once (w : World) (text : string)
    (id st : Z) (c : JSValue) :
  opcodes_distinct ->
  JSON_parse text = Some (JArray [JNumber RESPONSE; JNumber id; JNumber st; c]) ->
  (forall p, requests (this w) !! id = Some p ->
     exists w',
       handleWebsocketMessage text w = Returns tt w' /\
       trace w' = trace w ++ [Resolve p {| status := st; content := c |}] /\
       this w' = set_requests (delete id (requests (this w))) (this w) /\
       requests (this w') !! id = None /\
       heap w' = heap w /\
       (forall hs,
          promises w !! p = Some {| pstate := Pending; reactions := hs |} ->
          promises w' !! p
            = Some {| pstate := Fulfilled {| status := st; content := c |};
                      reactions := [] |})) /\
  (requests (this w) !! id = None ->
     handleWebsocketMessage text w = Returns tt w).
Proof.
  intros Hd Hp. rewrite (handle_response_eq w text id st c Hd Hp). split.
  - intros p Hreq. rewrite Hreq.
    destruct (resolve_promise_frame p {| status := st; content := c |}
                (record (Resolve p {| status := st; content := c |}) w))
      as (w1 & Hres & Hthis & Hheap & Htrace & _ & Hprom).
    rewrite Hres. eexists. split; [reflexivity|]. simpl.
    rewrite Hthis, Hheap, Htrace. simpl.
    split_and!; try done; [apply lookup_delete_eq|].
    intros hs Hhs. by destruct (Hprom hs Hhs).
  - intros Hreq. by rewrite Hreq.
Qed.

(** *** UPDATE frames *)

Lemma filterM_update_matches d0 path rest (l : list Observer) w :
  filterM (update_matches (d0 :: JString path :: rest)) l w
    = Returns (List.filter (fun x => accepts path (matcher x)) l) w.
Proof.
  induction l as [|x l IH]; [reflexivity|].
  simpl filterM. unfold update_matches at 1, index. simpl nth.
  destruct (matcher x) as [p|r] eqn:Hm; simpl; rewrite Hm; simpl.
  - run. rewrite (bind_returns _ _ _ _ _ IH). by run.
  - run. rewrite (bind_returns _ _ _ _ _ IH). by run.
Qed.

Lemma forEach_update_notify d0 d1 st c (l : list Observer) w :
  (forall x, x ∈ l ->
     handler_raises (handler x) {| status := st; content := c |} = None) ->
  forEach (update_notify [d0; d1; JNumber st; c]) l w
    = Returns tt
        (records (map (fun x => Invoke (handler x) {| status := st; content := c |}) l) w).
Proof.
  revert w. induction l as [|x l IH]; intros w Hok.
  - simpl. by rewrite records_nil.
  - simpl forEach. unfold update_notify at 1, index, call. simpl nth.
    simpl unary_plus. run.
    rewrite (Hok x) by apply list_elem_of_here. run.
    rewrite IH by (intros y Hy; apply Hok; by apply list_elem_of_further).
    rewrite record_records, records_records. reflexivity.
Qed.

(** C1, as the code has it.  An UPDATE frame for [path] with status
    [st] and content [c], received while the handlers of the matching
    observers return normally ([forEach] has no [try]: a handler that
    throws ends the dispatch).  The router returns normally, and what it adds to the trace
    is exactly one call [handler({status: st, content: c})] for each
    registered observer whose matcher accepts [path], in the order of
    registration; so no handler of another observer is called, and
    nothing else of the world changes. *)
Theorem update_dispatches_to_matching (w : World) (text path : string)
    (st : Z) (c : JSValue) :
  opcodes_distinct ->
  JSON_parse text = Some (JArray [JNumber UPDATE; JString path; JNumber st; c]) ->
  (forall x, x ∈ observers (this w) -> accepts path (matcher x) = true ->
     handler_raises (handler x) {| status := st; content := c |} = None) ->
  handleWebsocketMessage text w
    = Returns tt
        (records
           (map (fun x => Invoke (handler x) {| status := st; content := c |})
              (List.filter (fun x => accepts path (matcher x))
                 (observers (this w))))
           w).
Proof.
  intros Hd Hp Hok. destruct (incoming_opcodes_differ Hd) as (Hur & Huh & Hrh).
  unfold handleWebsocketMessage. rewrite Hp. simpl as_tuple. run.
  unfold route_update at 1. unfold index at 1. simpl nth.
  rewrite strict_eq_number_same. run.
  rewrite (bind_returns _ _ _ _ _ (filterM_update_matches _ _ _ _ _)). run.
  erewrite bind_returns; last first.
  { apply forEach_update_notify. intros x Hx.
    apply list_elem_of_In, filter_In in Hx as [Hx Hacc].
    apply Hok; [by apply list_elem_of_In|done]. }
  unfold route_response, route_handshake_complete, index. simpl nth.
  rewrite (strict_eq_number_other UPDATE RESPONSE) by congruence.
  rewrite (strict_eq_number_other UPDATE HANDSHAKE_COMPLETE) by congruence.
  by run.
Qed.

(** *** Removing observers *)

Lemma matcher_differs_spec m path :
  matcher_differs m path = false <-> m = MString path.
Proof.
  destruct m as [p|r]; simpl.
  - rewrite negb_false_iff, bool_decide_eq_true. split; congruence.
  - split; discriminate.
Qed.

Lemma socket_is_open_records es w :
  socket_is_open (records es w) = socket_is_open w.
Proof. reflexivity. Qed.

Lemma socket_is_open_socket w :
  socket_is_open w = true -> exists t, socket (this w) = Some t.
Proof.
  unfold socket_is_open. destruct (socket (this w)) as [t|]; [eauto|discriminate].
Qed.

Lemma filterM_unobserve_keep_open path (l : list Observer) w t :
  socket_is_open w = true ->
  socket (this w) = Some t ->
  filterM (unobserve_keep path) l w
    = Returns (kept_by path l)
        (records (map (fun _ => Send t (unsubscribe_frame path)) (removed_by path l)) w).
Proof.
  revert w. induction l as [|x l IH]; intros w Hopen Ht.
  - simpl. by rewrite records_nil.
  - simpl filterM. unfold unobserve_keep at 1. simpl.
    destruct (matcher_differs (matcher x) path) eqn:Hm; simpl.
    + run. rewrite (bind_returns _ _ _ _ _ (IH w Hopen Ht)). by run.
    + run. unfold bind at 1. rewrite Hopen, (send_eq _ w t Ht).
      cbv beta iota. run. rewrite record_records.
      erewrite bind_returns by (apply IH; [exact Hopen|exact Ht]). run.
      by rewrite records_records.
Qed.

Lemma filterM_unobserve_keep_not_open path (l : list Observer) w :
  socket_is_open w = false ->
  filterM (unobserve_keep path) l w = Returns (kept_by path l) w.
Proof.
  intros Hopen. induction l as [|x l IH]; [reflexivity|].
  simpl filterM. unfold unobserve_keep at 1. simpl.
  destruct (matcher_differs (matcher x) path) eqn:Hm; simpl.
  - run. rewrite (bind_returns _ _ _ _ _ IH). by run.
  - run. unfold bind at 1. rewrite Hopen. cbv beta iota. run.
    rewrite (bind_returns _ _ _ _ _ IH). by run.
Qed.

Lemma kept_by_all path (l : list Observer) :
  (forall x, x ∈ l -> matcher x <> MString path) -> kept_by path l = l.
Proof.
  induction l as [|x l IH]; intros Hall; [reflexivity|]. simpl.
  destruct (matcher_differs (matcher x) path) eqn:Hm.
  - f_equal. apply IH. intros y Hy. apply Hall. by apply list_elem_of_further.
  - apply matcher_differs_spec in Hm. destruct (Hall x); [apply list_elem_of_here|done].
Qed.

Lemma removed_by_none path (l : list Observer) :
  (forall x, x ∈ l -> matcher x <> MString path) -> removed_by path l = [].
Proof.
  induction l as [|x l IH]; intros Hall; [reflexivity|]. simpl.
  destruct (matcher_differs (matcher x) path) eqn:Hm; simpl.
  - apply IH. intros y Hy. apply Hall. by apply list_elem_of_further.
  - apply matcher_differs_spec in Hm. destruct (Hall x); [apply list_elem_of_here|done].
Qed.

Lemma set_observers_same w : upd_this (set_observers (observers (this w))) w = w.
Proof. destruct w as [s ? ? ? ?]. by destruct s. Qed.

(** C6, as the code has it.  [unobserve(p)] returns normally and keeps
    exactly the observers whose matcher is not the string [p], in their
    order; an observer with a pattern is always kept.  If [this.socket]
    is set and its [readyState] is [WebSocket.OPEN], one UNSUBSCRIBE frame
    for [p] is sent on it per removed observer, and otherwise no frame is
    sent; the [connected] flag is not consulted.  When no observer has the
    matcher [p], the world is left exactly as it was. *)
Theorem unobserve_removes_and_unsubscribes (w : World) (path : string) :
  exists w',
    unobserve path w = Returns tt w' /\
    this w' = set_observers (kept_by path (observers (this w))) (this w) /\
    (forall x, x ∈ observers (this w') <->
               x ∈ observers (this w) /\ matcher x <> MString path) /\
    (forall x r, x ∈ observers (this w) -> matcher x = MRegExp r ->
               x ∈ observers (this w')) /\
    (forall t, socket (this w) = Some t -> socket_is_open w = true ->
       trace w' = trace w ++
         map (fun _ => Send t (unsubscribe_frame path))
             (removed_by path (observers (this w)))) /\
    (socket_is_open w = false -> trace w' = trace w) /\
    ((forall x, x ∈ observers (this w) -> matcher x <> MString path) ->
       w' = w).
Proof.
  assert (Hmem : forall x, x ∈ kept_by path (observers (this w)) <->
                   x ∈ observers (this w) /\ matcher x <> MString path).
  { intros x. unfold kept_by. rewrite !list_elem_of_In, filter_In.
    rewrite <- matcher_differs_spec.
    destruct (matcher_differs (matcher x) path); intuition congruence. }
  unfold unobserve. rewrite bind_get_this.
  destruct (socket_is_open w) eqn:Hopen.
  - destruct (socket_is_open_socket w Hopen) as [t Ht].
    rewrite (bind_returns _ _ _ _ _ (filterM_unobserve_keep_open path _ w t Hopen Ht)).
    eexists. split; [reflexivity|]. simpl. split_and!.
    + done.
    + apply Hmem.
    + intros x r Hx Hr. apply Hmem. split; [done|congruence].
    + intros t' Ht' _. rewrite Ht in Ht'. by inversion Ht'.
    + discriminate.
    + intros Hall. rewrite (removed_by_none path _ Hall), (kept_by_all path _ Hall).
      clear. destruct w as [s hp ps ms tr]. destruct s.
      unfold records, upd_this, set_observers; simpl. by rewrite app_nil_r.
  - rewrite (bind_returns _ _ _ _ _ (filterM_unobserve_keep_not_open path _ w Hopen)).
    eexists. split; [reflexivity|]. simpl. split_and!.
    + done.
    + apply Hmem.
    + intros x r Hx Hr. apply Hmem. split; [done|congruence].
    + discriminate.
    + done.
    + intros Hall. rewrite (kept_by_all path _ Hall). apply set_observers_same.
Qed.

(** *** An invariant of the session *)

Lemma inv_initial : inv 0 initial_World.
Proof.
  split; simpl; try done.
  - intros t text Hin. by apply elem_of_nil in Hin.
Qed.

(** Worlds that agree on what [inv] reads. *)
Lemma inv_ext c0 w w' :
  inv c0 w ->
  socket (this w') = socket (this w) ->
  idCounter (this w') = idCounter (this w) ->
  requests (this w') = requests (this w) ->
  length (heap w') = length (heap w) ->
  (forall t text, Send t text ∈ trace w' -> Send t text ∈ trace w) ->
  inv c0 w'.
Proof.
  intros [Hs Ht Hp Hc Hx] Es Ec Er Eh Et. split.
  - intros t. rewrite Es, Eh. apply Hs.
  - intros t text Hin. rewrite Eh. eapply Ht, Et, Hin.
  - intros id p. rewrite Er, Ec. apply Hp.
  - by rewrite Ec.
  - by rewrite Ec.
Qed.

Lemma preserves_emit c0 e : is_Send e = false -> preserves (inv c0) (emit e).
Proof.
  intros He w Hw. simpl. apply (inv_ext c0 w); try done.
  intros t text Hin. simpl in Hin. apply elem_of_app in Hin as [Hin|Hin]; [done|].
  apply list_elem_of_singleton in Hin. by subst e.
Qed.

Lemma preserves_modify c0 (f : Socket -> Socket) :
  (forall s, socket (f s) = socket s) ->
  (forall s, idCounter (f s) = idCounter s) ->
  (forall s, requests (f s) = requests s) ->
  preserves (inv c0) (modify f).
Proof. intros Hs Hc Hr w Hw. simpl. apply (inv_ext c0 w); simpl; auto. Qed.

Lemma preserves_send c0 text : preserves (inv c0) (send text).
Proof.
  intros w Hw. destruct (socket (this w)) as [t|] eqn:Ht.
  - rewrite (send_eq _ w t Ht). destruct Hw as [Hs Hsent Hp Hc Hx].
    split; simpl; try done.
    intros t' text' Hin. apply elem_of_app in Hin as [Hin|Hin]; [eauto|].
    apply list_elem_of_singleton in Hin. inversion Hin; subst. by apply Hs.
  - by rewrite (send_unset _ w Ht).
Qed.

Lemma preserves_heap_alter c0 {A} (m : M A) (g : RiftSocket -> RiftSocket)
    (es : nat -> list Event) (a : A) :
  (forall t, forallb (fun e => negb (is_Send e)) (es t) = true) ->
  (forall w t, socket (this w) = Some t ->
     m w = Returns a (records (es t) (upd_heap (alter g t) w))) ->
  (forall w, socket (this w) = None -> exists e, m w = Throws e w) ->
  preserves (inv c0) m.
Proof.
  intros Hes Hsome Hnone w Hw. destruct (socket (this w)) as [t|] eqn:Ht.
  - rewrite (Hsome w t Ht). apply (inv_ext c0 w); try done.
    + simpl. by rewrite length_alter.
    + intros t' text Hin. simpl in Hin.
      apply elem_of_app in Hin as [Hin|Hin]; [done|].
      specialize (Hes t). rewrite forallb_forall in Hes.
      apply list_elem_of_In, Hes in Hin. discriminate.
  - destruct (Hnone w Ht) as [e ->]. done.
Qed.

Lemma with_socket_unset {A} (f : nat -> M A) w :
  socket (this w) = None ->
  with_socket f w = Throws (TypeError "this.socket is not an object") w.
Proof. intros Ht. unfold with_socket. rewrite bind_get_this. by rewrite Ht. Qed.

Lemma preserves_detach c0 k : preserves (inv c0) (detach k).
Proof.
  apply (preserves_heap_alter c0 _ (set_slot k false) (fun t => [Detach t k]) tt).
  - done.
  - intros w t Ht. by rewrite (detach_eq k w t Ht).
  - intros w Ht. eexists. by apply with_socket_unset.
Qed.

Lemma preserves_attach c0 k : preserves (inv c0) (attach k).
Proof.
  apply (preserves_heap_alter c0 _ (set_slot k true) (fun t => []) tt).
  - done.
  - intros w t Ht. by rewrite (attach_eq k w t Ht), records_nil.
  - intros w Ht. eexists. by apply with_socket_unset.
Qed.

Lemma preserves_socket_close c0 : preserves (inv c0) socket_close.
Proof.
  apply (preserves_heap_alter c0 _ set_closed (fun t => [CloseTransport t]) tt).
  - done.
  - intros w t Ht. by rewrite (socket_close_eq w t Ht).
  - intros w Ht. eexists. by apply with_socket_unset.
Qed.

Lemma preserves_new_promise c0 : preserves (inv c0) new_promise.
Proof. intros w Hw. simpl. by apply (inv_ext c0 w). Qed.

Lemma preserves_resolve_promise c0 p r : preserves (inv c0) (resolve_promise p r).
Proof.
  intros w Hw. unfold resolve_promise.
  destruct (promises w !! p) as [[[|r'|e] hs]|]; try done.
  by apply (inv_ext c0 w).
Qed.

Lemma preserves_reject_promise c0 p e : preserves (inv c0) (reject_promise p e).
Proof.
  intros w Hw. unfold reject_promise.
  destruct (promises w !! p) as [[[|r'|e'] hs]|]; try done.
  by apply (inv_ext c0 w).
Qed.

Lemma preserves_then_ c0 p h : preserves (inv c0) (then_ p h).
Proof.
  intros w Hw. unfold then_.
  destruct (promises w !! p) as [[[|r'|e'] hs]|]; try done;
    by apply (inv_ext c0 w).
Qed.

Lemma preserves_call c0 h r : preserves (inv c0) (call h r).
Proof.
  unfold call. apply preserves_bind; [by apply preserves_emit|].
  intros _. destruct (handler_raises h r);
    [apply preserves_throw|apply preserves_ret].
Qed.

Lemma preserves_get c0 : preserves (inv c0) get_this.
Proof. intros w Hw. exact Hw. Qed.

Lemma request_connected_eq w t path method body :
  connected (this w) = true ->
  socket (this w) = Some t ->
  request path method body w
    = Returns (length (promises w)) (after_request t path method body w).
Proof.
  intros Hc Ht. unfold request. rewrite bind_get_this, Hc. cbn [negb].
  rewrite bind_new_promise.
  erewrite bind_returns; [reflexivity|].
  apply try_catch_returns. run. cbv zeta. run.
  erewrite bind_returns by (apply send_eq; exact Ht). run. reflexivity.
Qed.

(** On a connected session without a transport the executor throws at
    [this.socket.send]: the counter has advanced, the promise is rejected
    and no request is recorded. *)
Lemma request_unset_eq w path method body :
  connected (this w) = true ->
  socket (this w) = None ->
  request path method body w
    = Returns (length (promises w))
        (upd_promises
           (fun l => l ++ [{| pstate := Rejected (TypeError "this.socket is not an object");
                              reactions := [] |}])
           (upd_this (set_idCounter (increment (idCounter (this w)))) w)).
Proof.
  intros Hc Ht. unfold request. rewrite bind_get_this, Hc. cbn [negb].
  rewrite bind_new_promise.
  erewrite bind_returns; [reflexivity|].
  erewrite try_catch_throws; last first.
  { run. cbv zeta. run. erewrite bind_throws by (apply send_unset; exact Ht).
    reflexivity. }
  unfold reject_promise. simpl.
  rewrite lookup_app_r by done. rewrite Nat.sub_diag. simpl.
  f_equal. unfold upd_promises, upd_this; simpl. f_equal.
  rewrite insert_app_r_alt by done. by rewrite Nat.sub_diag.
Qed.

Lemma preserves_request c0 path method body :
  preserves (inv c0) (request path method body).
Proof.
  intros w Hw.
  destruct (connected (this w)) eqn:Hc;
    [|by rewrite (request_not_connected_eq w path method body Hc)].
  destruct (socket (this w)) as [t|] eqn:Ht.
  - rewrite (request_connected_eq w t path method body Hc Ht).
    destruct Hw as [Hs Hsent Hp Hcnt Hx]. unfold after_request.
    pose proof (increment_le (idCounter (this w))) as Hle.
    split; simpl.
    + intros t' Ht'. apply Hs. congruence.
    + intros t' text Hin. apply elem_of_app in Hin as [Hin|Hin]; [eauto|].
      apply list_elem_of_singleton in Hin. inversion Hin; subst. by apply Hs.
    + intros id p. rewrite lookup_insert. case_decide.
      * intros _. subst id.
        destruct (decide (idCounter (this w) <= MAX_SAFE_INTEGER)) as [Hsafe|Hstop].
        -- left. rewrite (increment_safe _ Hsafe). lia.
        -- right. rewrite increment_stopped by lia. lia.
      * intros Hid. apply Hp in Hid. lia.
    + lia.
    + by apply increment_exact.
  - rewrite (request_unset_eq w path method body Hc Ht).
    destruct Hw as [Hs Hsent Hp Hcnt Hx].
    pose proof (increment_le (idCounter (this w))) as Hle.
    split; simpl; try done.
    + intros id p Hid. apply Hp in Hid. lia.
    + lia.
    + by apply increment_exact.
Qed.

Lemma preserves_bootstrap c0 m h : preserves (inv c0) (bootstrap m h).
Proof.
  destruct m as [p|r]; simpl; [|apply preserves_ret].
  apply preserves_bind; [apply preserves_request|].
  intros pr. apply preserves_then_.
Qed.

Lemma preserves_set_observers c0 l : preserves (inv c0) (modify (set_observers l)).
Proof. by apply preserves_modify. Qed.

Lemma preserves_observe c0 path h : preserves (inv c0) (observe path h).
Proof.
  unfold observe. apply preserves_bind; [apply preserves_get|]. intros s.
  apply preserves_bind.
  - destruct (connected s); [|apply preserves_ret].
    apply preserves_bind; [apply preserves_bootstrap|].
    intros _. apply preserves_send.
  - intros _. apply preserves_bind; [apply preserves_get|]. intros s'.
    apply preserves_set_observers.
Qed.

Lemma preserves_unobserve c0 path : preserves (inv c0) (unobserve path).
Proof.
  unfold unobserve. apply preserves_bind; [apply preserves_get|]. intros s.
  apply preserves_bind; [|intros kept; apply preserves_set_observers].
  apply preserves_filterM. intros x. unfold unobserve_keep.
  destruct (matcher_differs (matcher x) path); [apply preserves_ret|].
  apply preserves_bind; [|intros _; apply preserves_ret].
  intros w Hw. destruct (socket_is_open w); [|exact Hw].
  by apply preserves_send.
Qed.

Lemma preserves_route_update c0 data : preserves (inv c0) (route_update data).
Proof.
  unfold route_update.
  destruct (strict_eq_number (index data 0) UPDATE); [|apply preserves_ret].
  apply preserves_bind; [apply preserves_get|]. intros s.
  apply preserves_bind.
  - apply preserves_filterM. intros x. unfold update_matches.
    destruct (matcher x); [apply preserves_ret|].
    apply preserves_bind; [apply preserves_as_string|].
    intros path. apply preserves_ret.
  - intros matching. apply preserves_forEach. intros x. unfold update_notify.
    apply preserves_bind; [apply preserves_unary_plus|].
    intros st. apply preserves_call.
Qed.

Lemma preserves_route_response c0 data : preserves (inv c0) (route_response data).
Proof.
  unfold route_response.
  destruct (strict_eq_number (index data 0) RESPONSE); [|apply preserves_ret].
  apply preserves_bind; [apply preserves_as_number|]. intros id.
  apply preserves_bind; [apply preserves_get|]. intros s.
  destruct (requests s !! id) as [p|]; [|apply preserves_ret].
  apply preserves_bind; [apply preserves_as_number|]. intros st.
  apply preserves_bind; [by apply preserves_emit|]. intros _.
  apply preserves_bind; [apply preserves_resolve_promise|]. intros _.
  apply preserves_get_this. intros w [Hs Hsent Hp Hcnt Hx]. simpl.
  split; simpl; try done.
  intros id' p'. rewrite lookup_delete. case_decide; [done|apply Hp].
Qed.

Lemma preserves_populate c0 x : preserves (inv c0) (populate x).
Proof.
  unfold populate. apply preserves_bind; [apply preserves_send|].
  intros _. apply preserves_bootstrap.
Qed.

Lemma preserves_route_handshake_complete c0 data :
  preserves (inv c0) (route_handshake_complete data).
Proof.
  unfold route_handshake_complete.
  destruct (strict_eq_number (index data 0) HANDSHAKE_COMPLETE);
    [|apply preserves_ret].
  apply preserves_bind; [apply preserves_as_string|]. intros name.
  apply preserves_bind; [by apply preserves_emit|]. intros _.
  apply preserves_bind; [apply preserves_as_string|]. intros token.
  apply preserves_bind; [by apply preserves_modify|]. intros _.
  apply preserves_bind; [by apply preserves_modify|]. intros _.
  apply preserves_bind; [apply preserves_as_string|]. intros version.
  apply preserves_bind; [by apply preserves_modify|]. intros _.
  apply preserves_bind; [apply preserves_get|]. intros s.
  apply preserves_bind; [by apply preserves_emit|]. intros _.
  apply preserves_forEach. intros x. apply preserves_populate.
Qed.

Lemma preserves_handleWebsocketMessage c0 text :
  preserves (inv c0) (handleWebsocketMessage text).
Proof.
  unfold handleWebsocketMessage.
  destruct (JSON_parse text) as [v|]; [|by apply preserves_emit].
  apply preserves_bind; [apply preserves_as_tuple|]. intros data.
  apply preserves_bind; [apply preserves_route_update|]. intros _.
  apply preserves_bind; [apply preserves_route_response|]. intros _.
  apply preserves_route_handshake_complete.
Qed.

Lemma preserves_close c0 : preserves (inv c0) close.
Proof.
  unfold close. apply preserves_bind; [apply preserves_get|]. intros s.
  destruct (socket s); [|apply preserves_ret].
  apply preserves_bind; [apply preserves_detach|]. intros _.
  apply preserves_bind; [apply preserves_detach|]. intros _.
  apply preserves_bind; [apply preserves_detach|]. intros _.
  apply preserves_bind; [apply preserves_socket_close|]. intros _.
  apply preserves_bind.
  { intros w [Hs Hsent Hp Hcnt Hx]. simpl. split; simpl; try done. }
  intros _. apply preserves_bind; [by apply preserves_modify|]. intros _.
  by apply preserves_modify.
Qed.

Lemma preserves_on_open c0 : preserves (inv c0) on_open.
Proof.
  unfold on_open. apply preserves_bind; [by apply preserves_modify|]. intros _.
  apply preserves_bind; [by apply preserves_modify|]. intros _.
  apply preserves_send.
Qed.

Lemma preserves_on_close c0 reason : preserves (inv c0) (on_close reason).
Proof.
  unfold on_close. apply preserves_bind; [apply preserves_get|]. intros s.
  destruct (connecting s); [by apply preserves_emit|].
  apply preserves_bind; [by apply preserves_modify|]. intros _.
  by apply preserves_emit.
Qed.

Lemma connect_eq w c state :
  RiftSocket_new c = inr state ->
  connect c w = Returns tt (after_connect c state w).
Proof.
  intros Hnew. unfold connect. rewrite Hnew. run.
  unfold bind at 1. simpl.
  erewrite bind_returns by (by apply attach_eq).
  erewrite bind_returns by (by apply attach_eq).
  erewrite attach_eq by done. simpl.
  unfold after_connect, upd_heap; simpl. do 2 f_equal.
  rewrite !alter_app_r_alt by (rewrite ?length_alter; done).
  rewrite ?length_alter, Nat.sub_diag. reflexivity.
Qed.

Lemma preserves_connect c0 c : preserves (inv c0) (connect c).
Proof.
  intros w Hw. destruct (RiftSocket_new c) as [e|state] eqn:Hnew.
  - unfold connect. rewrite Hnew.
    revert w Hw. change (preserves (inv c0)
      (modify (set_connecting true) ;; modify (set_code c) ;;
       emit (Log "[-] Error during connect:") ;; emit (Log (message e)))).
    apply preserves_bind; [by apply preserves_modify|]. intros _.
    apply preserves_bind; [by apply preserves_modify|]. intros _.
    apply preserves_bind; [by apply preserves_emit|]. intros _.
    by apply preserves_emit.
  - rewrite (connect_eq w c state Hnew). destruct Hw as [Hs Hsent Hp Hcnt Hx].
    split; simpl; try done.
    + intros t Ht. inversion Ht; subst. rewrite length_app; simpl. lia.
    + intros t text Hin. apply Hsent in Hin. rewrite length_app; simpl. lia.
Qed.

Lemma preserves_tryReconnect c0 : preserves (inv c0) tryReconnect.
Proof.
  unfold tryReconnect. apply preserves_bind; [apply preserves_get|].
  intros s. apply preserves_connect.
Qed.

Lemma preserves_fire c0 t ev : preserves (inv c0) (fire t ev).
Proof.
  intros w Hw. unfold fire. destruct (heap w !! t) as [rs|]; [|exact Hw].
  destruct ev as [|d|r].
  - destruct (onopen rs); [by apply preserves_on_open|exact Hw].
  - destruct (onmessage rs);
      [by apply preserves_handleWebsocketMessage|exact Hw].
  - destruct (onclose rs); [by apply preserves_on_close|exact Hw].
Qed.

Lemma preserves_run c0 o : preserves (inv c0) (run o).
Proof.
  destruct o; simpl.
  - apply preserves_observe.
  - apply preserves_unobserve.
  - apply preserves_bind; [apply preserves_request|intros _; apply preserves_ret].
  - apply preserves_close.
  - apply preserves_connect.
  - apply preserves_tryReconnect.
  - apply preserves_fire.
  - intros w Hw. apply (inv_ext c0 w); try done. simpl. by rewrite length_alter.
Qed.

Lemma inv_drain c0 w : inv c0 w -> inv c0 (drain w).
Proof.
  intros Hw. apply (inv_ext c0 w); try done.
  intros t text Hin. simpl in Hin. apply elem_of_app in Hin as [Hin|Hin]; [done|].
  apply list_elem_of_fmap in Hin as (hr & Heq & _). discriminate.
Qed.

Lemma preserves_step c0 o : preserves (inv c0) (step o).
Proof.
  intros w Hw. unfold step, job. pose proof (preserves_run c0 o w Hw) as Hr.
  destruct (run o w) as [a w'|e w'|]; try done; by apply inv_drain.
Qed.

Lemma reachable_inv w : reachable w -> inv 0 w.
Proof.
  induction 1 as [|o w w' _ IH Hstep|o w e w' _ IH Hstep].
  - apply inv_initial.
  - pose proof (preserves_step 0 o w IH) as Hp. by rewrite Hstep in Hp.
  - pose proof (preserves_step 0 o w IH) as Hp. by rewrite Hstep in Hp.
Qed.

Lemma run_jobs_reachable os w w' :
  reachable w -> run_jobs os w = Some w' -> reachable w'.
Proof.
  revert w. induction os as [|o os IH]; intros w Hw Hrun; simpl in Hrun.
  - by inversion Hrun; subst.
  - destruct (step o w) as [[] w1|e w1|] eqn:Hstep; try done.
    + eapply IH; [|exact Hrun]. by eapply reachable_returns.
    + eapply IH; [|exact Hrun]. by eapply reachable_throws.
Qed.

Lemma outbox_app t tr1 tr2 : outbox t (tr1 ++ tr2) = outbox t tr1 ++ outbox t tr2.
Proof. unfold outbox. apply omap_app. Qed.

Lemma outbox_unallocated c0 w t :
  inv c0 w -> (length (heap w) <= t)%nat -> outbox t (trace w) = [].
Proof.
  intros [_ Hsent _ _] Hle.
  assert (Hno : forall text, Send t text ∉ trace w).
  { intros text Hin. apply Hsent in Hin. lia. }
  clear Hsent. induction (trace w) as [|e tr IH]; [reflexivity|].
  simpl. destruct e as [t' text| | | | | |]; try (apply IH; intros text Hin;
    apply (Hno text); by apply list_elem_of_further).
  case_decide as Heq.
  - subst t'. destruct (Hno text). apply list_elem_of_here.
  - apply IH. intros text' Hin. apply (Hno text'). by apply list_elem_of_further.
Qed.

(** *** The open event *)

Lemma drain_idle w : microtasks w = [] -> drain w = w.
Proof.
  intros Hm. destruct w as [s hp ps ms tr]. simpl in Hm. subst ms.
  unfold drain; simpl. by rewrite app_nil_r.
Qed.

Lemma reachable_idle w : reachable w -> microtasks w = [].
Proof.
  assert (Hjob : forall o w a w', step o w = Returns a w' -> microtasks w' = []).
  { intros o w0 a w' Hs. unfold step, job in Hs.
    destruct (run o w0); inversion Hs; reflexivity. }
  assert (Hjob' : forall o w e w', step o w = Throws e w' -> microtasks w' = []).
  { intros o w0 a w' Hs. unfold step, job in Hs.
    destruct (run o w0); inversion Hs; reflexivity. }
  destruct 1; eauto.
Qed.

Lemma on_open_eq w t :
  socket (this w) = Some t ->
  on_open w
    = Returns tt
        (record (Send t handshake_frame)
           (upd_this (set_connecting false) (upd_this (set_connected true) w))).
Proof.
  intros Ht. unfold on_open. run. by rewrite (send_eq _ _ t).
Qed.

(** C5, as the code has it.  When the open event of a transport [t]
    fires and the handler of [connect] is installed on [t], the session
    sets [connected] to true and [connecting] to false.  If [this.socket]
    is set at that moment, it then hands exactly one frame, the text
    [[HANDSHAKE]], to the transport that [this.socket] refers to; if
    [this.socket] is unset, the handler throws a [TypeError] and no frame
    is sent.  When the event is the job that follows [connect(code)], the
    transport of [this.socket] is the one [connect] made, and the
    handshake is the only frame in its outbox, hence the first. *)
Theorem open_event_sends_handshake :
  (forall (w : World) (t tc : nat) (rs : RiftSocket),
     heap w !! t = Some rs -> onopen rs = true -> socket (this w) = Some tc ->
     exists w',
       fire t OpenEvent w = Returns tt w' /\
       connected (this w') = true /\ connecting (this w') = false /\
       trace w' = trace w ++ [Send tc handshake_frame]) /\
  (forall (w : World) (t : nat) (rs : RiftSocket),
     heap w !! t = Some rs -> onopen rs = true -> socket (this w) = None ->
     exists w',
       fire t OpenEvent w
         = Throws (TypeError "this.socket is not an object") w' /\
       connected (this w') = true /\ connecting (this w') = false /\
       trace w' = trace w) /\
  (forall (w : World) (c : string) (state : Z),
     reachable w -> RiftSocket_new c = inr state ->
     exists (t : nat) (w1 w2 : World),
       step (Connect c) w = Returns tt w1 /\
       socket (this w1) = Some t /\
       outbox t (trace w1) = [] /\
       step (Fire t OpenEvent) w1 = Returns tt w2 /\
       connected (this w2) = true /\ connecting (this w2) = false /\
       trace w2 = trace w1 ++ [Send t handshake_frame] /\
       outbox t (trace w2) = [handshake_frame]).
Proof.
  split_and!.
  - intros w t tc rs Hrs Hon Htc. unfold fire. rewrite Hrs, Hon.
    rewrite (on_open_eq w tc Htc). eexists. by split_and!.
  - intros w t rs Hrs Hon Hnone. unfold fire. rewrite Hrs, Hon.
    unfold on_open. rewrite !bind_modify.
    rewrite send_unset by done. eexists. by split_and!.
  - intros w c state Hreach Hnew.
    pose proof (reachable_idle w Hreach) as Hidle.
    pose proof (reachable_inv w Hreach) as Hinv.
    exists (length (heap w)), (after_connect c state w),
      (record (Send (length (heap w)) handshake_frame)
         (upd_this (set_connecting false)
            (upd_this (set_connected true) (after_connect c state w)))).
    assert (Hout : outbox (length (heap w)) (trace w) = []).
    { by apply (outbox_unallocated 0). }
    split_and!; try done.
    + unfold step, job; simpl. rewrite (connect_eq w c state Hnew).
      by rewrite drain_idle.
    + unfold step, job, run, fire.
      replace (heap (after_connect c state w) !! length (heap w))
        with (Some {| rs_code := c; onopen := true; onmessage := true;
                      onclose := true; readyState := state; closed := false |}).
      * cbn [onopen]. rewrite (on_open_eq _ (length (heap w))) by done.
        by rewrite drain_idle.
      * unfold after_connect; cbn [heap].
        rewrite lookup_app_r by done. by rewrite Nat.sub_diag.
    + simpl. rewrite outbox_app, Hout. simpl. by rewrite decide_True.
Qed.

(** *** HANDSHAKE_COMPLETE frames *)

Lemma after_replay_nil t w : after_replay t [] w = w.
Proof.
  destruct w as [s hp ps ms tr]. destruct s.
  unfold after_replay, replay_promises, set_requests, set_idCounter; simpl.
  rewrite !app_nil_r, Z.add_0_r. reflexivity.
Qed.

Lemma then_fresh (ps : list Promise) h w :
  promises w = ps ++ [{| pstate := Pending; reactions := [] |}] ->
  then_ (length ps) h w
    = Returns tt
        (upd_promises
           (fun _ => ps ++ [{| pstate := Pending; reactions := [h] |}]) w).
Proof.
  intros Hps. unfold then_. rewrite Hps.
  rewrite lookup_app_r by done. rewrite Nat.sub_diag. simpl.
  f_equal. unfold upd_promises. rewrite Hps. f_equal.
  rewrite insert_app_r_alt by done. by rewrite Nat.sub_diag.
Qed.

Lemma populate_eq t x w :
  connected (this w) = true ->
  socket (this w) = Some t ->
  idCounter (this w) + Z.of_nat (length (exact_handlers [x]))
    <= MAX_SAFE_INTEGER + 1 ->
  populate x w = Returns tt (after_replay t [x] w).
Proof.
  intros Hc Ht Hsafe. unfold populate.
  erewrite bind_returns by (apply send_eq; exact Ht).
  unfold after_replay, replay_promises, exact_handlers in *. simpl in *.
  destruct (matcher x) as [p|r] eqn:Hm; simpl in *.
  - erewrite bind_returns by (by apply request_connected_eq).
    erewrite then_fresh by reflexivity.
    unfold after_request. cbn [this idCounter upd_this record].
    rewrite increment_safe by (cbn [this idCounter upd_this record]; lia).
    destruct w as [s hp ps ms tr]. destruct s. simpl in *.
    unfold upd_promises, after_request, upd_this, record; simpl.
    by rewrite <- app_assoc.
  - destruct w as [s hp ps ms tr]. destruct s. simpl in *.
    unfold record, set_requests, set_idCounter; simpl.
    by rewrite app_nil_r, Z.add_0_r.
Qed.

Lemma after_replay_cons t x l w :
  after_replay t l (after_replay t [x] w) = after_replay t (x :: l) w.
Proof.
  unfold after_replay, replay_promises, exact_handlers. simpl.
  destruct (matcher x) as [p|r]; simpl.
  - rewrite length_app; simpl. rewrite Nat.add_1_r.
    rewrite <- !app_assoc. simpl.
    unfold set_requests, set_idCounter; simpl.
    change (Z.of_nat 1) with 1. do 2 f_equal.
    rewrite Nat2Z.inj_succ. unfold omap. lia.
  - destruct w as [s hp ps ms tr]. destruct s. simpl.
    rewrite !app_nil_r, Z.add_0_r. unfold set_requests, set_idCounter; simpl.
    by rewrite <- app_assoc.
Qed.

Lemma exact_handlers_cons x (l : list Observer) :
  length (exact_handlers (x :: l))
    = (length (exact_handlers [x]) + length (exact_handlers l))%nat.
Proof. unfold exact_handlers. simpl. by destruct (matcher x). Qed.

Lemma forEach_populate t (l : list Observer) w :
  connected (this w) = true ->
  socket (this w) = Some t ->
  idCounter (this w) + Z.of_nat (length (exact_handlers l))
    <= MAX_SAFE_INTEGER + 1 ->
  forEach populate l w = Returns tt (after_replay t l w).
Proof.
  revert w. induction l as [|x l IH]; intros w Hc Ht Hsafe.
  - simpl. by rewrite after_replay_nil.
  - rewrite exact_handlers_cons in Hsafe.
    simpl forEach. erewrite bind_returns by (apply populate_eq; [done..|lia]).
    rewrite IH; [by rewrite after_replay_cons|done|done|].
    cbn [after_replay this idCounter set_requests set_idCounter]. lia.
Qed.

Lemma replay_requests_below c n (l : list Observer) (m : gmap Z nat) id :
  id < c -> replay_requests c n l m !! id = m !! id.
Proof.
  revert c n m. induction l as [|x l IH]; intros c n m Hlt; [reflexivity|].
  simpl. destruct (matcher x).
  - rewrite IH by lia. apply lookup_insert_ne. lia.
  - by apply IH.
Qed.

Lemma replay_requests_lookup c n (l : list Observer) (m : gmap Z nat) i x p :
  l !! i = Some x -> matcher x = MString p ->
  replay_requests c n l m
    !! (c + Z.of_nat (length (exact_handlers (take i l))))
  = Some (n + length (exact_handlers (take i l)))%nat.
Proof.
  revert c n m i. induction l as [|y l IH]; intros c n m i Hi Hm; [done|].
  destruct i as [|i]; simpl in Hi.
  - inversion Hi; subst y. simpl. rewrite Hm. simpl.
    rewrite Z.add_0_r, Nat.add_0_r.
    rewrite replay_requests_below by lia. apply lookup_insert_eq.
  - simpl. unfold exact_handlers. simpl. destruct (matcher y); simpl.
    + specialize (IH (c + 1) (S n) (<[c:=n]> m) i Hi Hm).
      unfold exact_handlers in IH.
      rewrite Nat2Z.inj_succ, Nat.add_succ_r.
      simpl in IH. rewrite <- IH. f_equal. lia.
    + by apply IH.
Qed.

Lemma exact_handlers_lookup (l : list Observer) i x p :
  l !! i = Some x -> matcher x = MString p ->
  exact_handlers l !! length (exact_handlers (take i l)) = Some (handler x).
Proof.
  revert i. induction l as [|y l IH]; intros i Hi Hm; [done|].
  destruct i as [|i]; simpl in Hi.
  - inversion Hi; subst y. unfold exact_handlers. simpl. by rewrite Hm.
  - unfold exact_handlers. simpl. destruct (matcher y); simpl; by apply IH.
Qed.

Lemma replay_promises_lookup (ps : list Promise) (l : list Observer) i x p :
  l !! i = Some x -> matcher x = MString p ->
  (ps ++ replay_promises l) !! (length ps + length (exact_handlers (take i l)))%nat
  = Some {| pstate := Pending; reactions := [handler x] |}.
Proof.
  intros Hi Hm. rewrite lookup_app_r by lia.
  replace (length ps + length (exact_handlers (take i l)) - length ps)%nat
    with (length (exact_handlers (take i l))) by lia.
  unfold replay_promises. rewrite list_lookup_fmap.
  by rewrite (exact_handlers_lookup l i x p Hi Hm).
Qed.

Lemma handle_handshake_complete_eq w text version name token :
  opcodes_distinct ->
  JSON_parse text
    = Some (JArray [JNumber HANDSHAKE_COMPLETE; JString version; JString name;
                    JString token]) ->
  handleWebsocketMessage text w
    = forEach populate (observers (this w)) (with_identity version name token w).
Proof.
  intros Hd Hp. destruct (incoming_opcodes_differ Hd) as (Hur & Huh & Hrh).
  unfold handleWebsocketMessage. rewrite Hp. simpl as_tuple. rewrite bind_ret.
  unfold route_update, route_response, route_handshake_complete, index.
  simpl nth.
  rewrite (strict_eq_number_other HANDSHAKE_COMPLETE UPDATE) by congruence.
  rewrite (strict_eq_number_other HANDSHAKE_COMPLETE RESPONSE) by congruence.
  rewrite strict_eq_number_same. simpl as_string. run. reflexivity.
Qed.

(** A RESPONSE frame for a pending request whose promise is pending: the
    resolve function is called and, when the job ends, the handlers
    chained on the promise, each with the result of the frame. *)
Lemma response_reaches_reactions w text id st c p hs :
  opcodes_distinct ->
  JSON_parse text = Some (JArray [JNumber RESPONSE; JNumber id; JNumber st; c]) ->
  requests (this w) !! id = Some p ->
  promises w !! p = Some {| pstate := Pending; reactions := hs |} ->
  microtasks w = [] ->
  exists w',
    job (handleWebsocketMessage text) w = Returns tt w' /\
    trace w' = trace w ++
      Resolve p {| status := st; content := c |}
        :: map (fun h => Invoke h {| status := st; content := c |}) hs.
Proof.
  intros Hd Hp Hreq Hprom Hidle. unfold job.
  rewrite (handle_response_eq w text id st c Hd Hp), Hreq.
  destruct (resolve_promise_frame p {| status := st; content := c |}
              (record (Resolve p {| status := st; content := c |}) w))
    as (w1 & Hres & Hthis & Hheap & Htrace & _ & Hq).
  rewrite Hres. destruct (Hq hs Hprom) as [_ Hmicro].
  eexists. split; [reflexivity|]. simpl. rewrite Htrace, Hmicro. simpl.
  rewrite Hidle. simpl. rewrite <- app_assoc. simpl.
  by rewrite map_map.
Qed.

(** C4, as the code has it.  A HANDSHAKE_COMPLETE frame
    [[op, version, name, token]] received while the session is connected
    and owns a transport [t], the ids of the bootstrap requests,
    [idCounter] and the following, being safe integers.  The router returns normally; the three
    identity fields hold [version], [name] and [token]; after the console
    line and the saving of the name, the frames handed to [t] are, for
    each registered observer in order, its SUBSCRIBE frame (naming the
    path, or the source of the pattern) and, for a string matcher, the
    REQUEST frame of one bootstrap request.  For the observer [x] at
    index [i] with a string matcher, [k] such observers preceding it, the
    request [idCounter + k] is pending with a promise on which the handler
    of [x], and nothing else, is chained; a RESPONSE frame for that id,
    received next, calls that handler once with the result of the frame. *)
Theorem handshake_complete_replays_observers (w : World) (text : string)
    (version name token : string) (t : nat) :
  opcodes_distinct ->
  JSON_parse text
    = Some (JArray [JNumber HANDSHAKE_COMPLETE; JString version; JString name;
                    JString token]) ->
  connected (this w) = true ->
  socket (this w) = Some t ->
  idCounter (this w)
    + Z.of_nat (length (exact_handlers (observers (this w))))
    <= MAX_SAFE_INTEGER + 1 ->
  exists w',
    handleWebsocketMessage text w = Returns tt w' /\
    computerVersion (this w') = version /\
    computerName (this w') = name /\
    pushNotificationSubscriptionToken (this w') = token /\
    observers (this w') = observers (this w) /\
    trace w' = trace w ++
      [Log ("Connected to " +:+ name); WithComputerConfig name] ++
      map (Send t) (replay_frames (idCounter (this w)) (observers (this w))) /\
    (forall i x p,
       observers (this w) !! i = Some x -> matcher x = MString p ->
       let k := length (exact_handlers (take i (observers (this w)))) in
       requests (this w') !! (idCounter (this w) + Z.of_nat k)
         = Some (length (promises w) + k)%nat /\
       promises w' !! (length (promises w) + k)%nat
         = Some {| pstate := Pending; reactions := [handler x] |} /\
       (forall text' st c,
          microtasks w = [] ->
          JSON_parse text'
            = Some (JArray [JNumber RESPONSE;
                            JNumber (idCounter (this w) + Z.of_nat k);
                            JNumber st; c]) ->
          exists w'',
            job (handleWebsocketMessage text') w' = Returns tt w'' /\
            trace w'' = trace w' ++
              [Resolve (length (promises w) + k)%nat {| status := st; content := c |};
               Invoke (handler x) {| status := st; content := c |}])).
Proof.
  intros Hd Hp Hc Ht Hsafe.
  rewrite (handle_handshake_complete_eq w text version name token Hd Hp).
  rewrite (forEach_populate t) by done.
  eexists. split; [reflexivity|]. simpl. split_and!; try done.
  - by rewrite <- !app_assoc.
  - intros i x p Hi Hm.
    pose proof (replay_requests_lookup (idCounter (this w)) (length (promises w))
                  (observers (this w)) (requests (this w)) i x p Hi Hm) as Hreq.
    pose proof (replay_promises_lookup (promises w) (observers (this w)) i x p
                  Hi Hm) as Hprom.
    split_and!; try done.
    intros text' st c Hidle Hp'.
    destruct (response_reaches_reactions
                (after_replay t (observers (this w))
                   (with_identity version name token w))
                text' _ st c _ [handler x] Hd Hp' Hreq Hprom Hidle)
      as (w'' & Hjob & Htrace).
    exists w''. split; [exact Hjob|]. rewrite Htrace. reflexivity.
Qed.

(** *** Jobs that have an outcome *)







































(** *** Request ids *)





End Properties.

(** ** Further properties of the session *)

Section Further.
Context `{Runtime}.

(** *** Registering an observer *)

Lemma observe_disconnected_eq w path h :
  connected (this w) = false ->
  observe path h w
    = Returns tt
        (upd_this
           (set_observers (observers (this w) ++ [{| matcher := path; handler := h |}]))
           w).
Proof.
  intros Hc. unfold observe. rewrite bind_get_this, Hc. run. reflexivity.
Qed.

Lemma observe_string_eq w t p h :
  connected (this w) = true ->
  socket (this w) = Some t ->
  observe (MString p) h w = Returns tt (after_observe_string t p h w).
Proof.
  intros Hc Ht. unfold observe. rewrite bind_get_this, Hc. run.
  unfold bootstrap. run.
  erewrite bind_returns by (by apply request_connected_eq).
  erewrite bind_returns by (by apply then_fresh).
  erewrite bind_returns by (by apply send_eq).
  run. reflexivity.
Qed.

Lemma observe_pattern_eq w t r h :
  connected (this w) = true ->
  socket (this w) = Some t ->
  observe (MRegExp r) h w
    = Returns tt
        (upd_this
           (set_observers
              (observers (this w) ++ [{| matcher := MRegExp r; handler := h |}]))
           (record (Send t (subscribe_frame (MRegExp r))) w)).
Proof.
  intros Hc Ht. unfold observe. rewrite bind_get_this, Hc. run.
  unfold bootstrap. run.
  erewrite bind_returns by (by apply send_eq).
  run. reflexivity.
Qed.

Lemma observe_unset_eq w path h :
  connected (this w) = true ->
  socket (this w) = None ->
  exists w',
    observe path h w = Throws (TypeError "this.socket is not an object") w' /\
    observers (this w') = observers (this w) /\
    requests (this w') = requests (this w) /\
    trace w' = trace w.
Proof.
  intros Hc Ht. unfold observe. rewrite bind_get_this, Hc. run.
  destruct path as [p|r]; unfold bootstrap; run.
  - erewrite bind_returns by (by apply request_unset_eq).
    unfold then_ at 1. unfold bind at 1. simpl.
    rewrite lookup_app_r by done. rewrite Nat.sub_diag. simpl.
    erewrite bind_throws by (by apply send_unset).
    eexists. split; [reflexivity|]. by split_and!.
  - erewrite bind_throws by (by apply send_unset).
    eexists. split; [reflexivity|]. by split_and!.
Qed.

Lemma observe_registry w path h :
  match observe path h w with
  | Returns _ w' =>
      observers (this w')
        = observers (this w) ++ [{| matcher := path; handler := h |}]
  | Throws _ w' => observers (this w') = observers (this w)
  | Untyped => False
  end.
Proof.
  destruct (connected (this w)) eqn:Hc.
  - destruct (socket (this w)) as [t|] eqn:Ht.
    + destruct path as [p|r].
      * by rewrite (observe_string_eq w t p h Hc Ht).
      * by rewrite (observe_pattern_eq w t r h Hc Ht).
    + destruct (observe_unset_eq w path h Hc Ht) as (w' & -> & Hobs & _). done.
  - by rewrite (observe_disconnected_eq w path h Hc).
Qed.

(** X1.  Whatever the state of the session, [observe(path, h)] either
    returns, and then the registry is the old one followed by the new
    observer (nothing is replaced, removed or reordered, a matcher that is
    already observed included), or it throws, and then the registry is
    the old one. *)
Theorem observe_appends_or_leaves_registry (w : World) (path : Matcher)
    (h : Handler) :
  match observe path h w with
  | Returns _ w' =>
      observers (this w')
        = observers (this w) ++ [{| matcher := path; handler := h |}]
  | Throws _ w' => observers (this w') = observers (this w)
  | Untyped => False
  end.
Proof. apply observe_registry. Qed.

Lemma resolve_promise_pending_eq p r hs w :
  promises w !! p = Some {| pstate := Pending; reactions := hs |} ->
  resolve_promise p r w
    = Returns tt
        (upd_microtasks (fun q => q ++ map (fun h => (h, r)) hs)
           (upd_promises
              (<[p := {| pstate := Fulfilled r; reactions := [] |}]>) w)).
Proof. intros Hp. unfold resolve_promise. by rewrite Hp. Qed.

(** The job of a RESPONSE frame for a pending request whose promise is
    pending. *)
Lemma response_job_eq w text id st c p hs :
  opcodes_distinct ->
  JSON_parse text = Some (JArray [JNumber RESPONSE; JNumber id; JNumber st; c]) ->
  requests (this w) !! id = Some p ->
  promises w !! p = Some {| pstate := Pending; reactions := hs |} ->
  microtasks w = [] ->
  job (handleWebsocketMessage text) w
    = Returns tt
        {| this := set_requests (delete id (requests (this w))) (this w);
           heap := heap w;
           promises :=
             <[p := {| pstate := Fulfilled {| status := st; content := c |};
                       reactions := [] |}]> (promises w);
           microtasks := [];
           trace := trace w ++
             Resolve p {| status := st; content := c |}
               :: map (fun h => Invoke h {| status := st; content := c |}) hs |}.
Proof.
  intros Hd Hp Hreq Hprom Hidle. unfold job.
  rewrite (handle_response_eq w text id st c Hd Hp), Hreq.
  rewrite (resolve_promise_pending_eq p _ hs) by done.
  unfold drain, upd_this, upd_microtasks, upd_promises, record; simpl.
  rewrite Hidle. simpl. rewrite <- app_assoc. simpl. by rewrite map_map.
Qed.

(** X2.  On a connected session that owns transport [t], [observe] with
    a string path hands [t] the REQUEST frame of a bootstrap request, with
    the id [idCounter], and then the SUBSCRIBE frame, in this order,
    records the request as pending and increments the counter.  The
    RESPONSE frame for that id,
    when it is the next job, calls the handler once with the result of
    the frame and leaves no request pending under the id. *)
Theorem observe_connected_bootstraps_handler (w : World) (t : nat)
    (p : string) (h : Handler) :
  opcodes_distinct ->
  connected (this w) = true ->
  socket (this w) = Some t ->
  microtasks w = [] ->
  exists w1,
    observe (MString p) h w = Returns tt w1 /\
    trace w1 = trace w ++
      [Send t (request_frame (idCounter (this w)) p None None);
       Send t (subscribe_frame (MString p))] /\
    requests (this w1) !! idCounter (this w) = Some (length (promises w)) /\
    idCounter (this w1) = increment (idCounter (this w)) /\
    forall text st c,
      JSON_parse text
        = Some (JArray [JNumber RESPONSE; JNumber (idCounter (this w));
                        JNumber st; c]) ->
      exists w2,
        job (handleWebsocketMessage text) w1 = Returns tt w2 /\
        trace w2 = trace w1 ++
          [Resolve (length (promises w)) {| status := st; content := c |};
           Invoke h {| status := st; content := c |}] /\
        requests (this w2) !! idCounter (this w) = None.
Proof.
  intros Hd Hc Ht Hidle. rewrite (observe_string_eq w t p h Hc Ht).
  eexists. split; [reflexivity|]. split_and!.
  - simpl. by rewrite <- app_assoc.
  - simpl. apply lookup_insert_eq.
  - reflexivity.
  - intros text st c Hp.
    rewrite (response_job_eq _ text _ st c (length (promises w)) [h] Hd Hp).
    + eexists. split; [reflexivity|]. simpl. split; [done|].
      apply lookup_delete_eq.
    + simpl. apply lookup_insert_eq.
    + simpl. rewrite lookup_app_r by done. by rewrite Nat.sub_diag.
    + exact Hidle.
Qed.

(** X3.  [observe] with a pattern never issues a request: whether it
    returns or throws, the pending requests, the counter and the promises
    are as before, and the only frame it may send is one SUBSCRIBE frame
    that carries the source text of the pattern. *)
Theorem observe_pattern_issues_no_request (w : World) (r : RegExp) (h : Handler) :
  match observe (MRegExp r) h w with
  | Returns _ w' | Throws _ w' =>
      requests (this w') = requests (this w) /\
      idCounter (this w') = idCounter (this w) /\
      promises w' = promises w /\
      (trace w' = trace w \/
       exists t, socket (this w) = Some t /\
         trace w' = trace w ++
           [Send t (JSON_stringify (JArray [JNumber SUBSCRIBE; JString (source r)]))])
  | Untyped => False
  end.
Proof.
  destruct (connected (this w)) eqn:Hc.
  - destruct (socket (this w)) as [t|] eqn:Ht.
    + rewrite (observe_pattern_eq w t r h Hc Ht). simpl.
      split_and!; try done. right. by exists t.
    + unfold observe. rewrite bind_get_this, Hc. run. unfold bootstrap. run.
      erewrite bind_throws by (by apply send_unset).
      split_and!; try done. by left.
  - rewrite (observe_disconnected_eq w _ h Hc). simpl.
    split_and!; try done. by left.
Qed.

(** *** Removing an observer again *)

Lemma unobserve_eq w path :
  unobserve path w
    = Returns tt
        (upd_this (set_observers (kept_by path (observers (this w))))
           (records (unsubscribe_events path w) w)).
Proof.
  unfold unobserve, unsubscribe_events. rewrite bind_get_this.
  destruct (socket_is_open w) eqn:Hopen.
  - destruct (socket_is_open_socket w Hopen) as [t Ht]. rewrite Ht.
    by rewrite (bind_returns _ _ _ _ _
                  (filterM_unobserve_keep_open path _ w t Hopen Ht)).
  - rewrite (bind_returns _ _ _ _ _
               (filterM_unobserve_keep_not_open path _ w Hopen)).
    unfold modify.
    destruct (socket (this w)); by rewrite records_nil.
Qed.

Lemma kept_by_kept_by path (l : list Observer) :
  kept_by path (kept_by path l) = kept_by path l.
Proof.
  apply kept_by_all. intros x Hx Heq.
  apply list_elem_of_In, filter_In in Hx as [_ Hx].
  apply matcher_differs_spec in Heq. congruence.
Qed.

Lemma removed_by_kept_by path (l : list Observer) :
  removed_by path (kept_by path l) = [].
Proof.
  apply removed_by_none. intros x Hx Heq.
  apply list_elem_of_In, filter_In in Hx as [_ Hx].
  apply matcher_differs_spec in Heq. congruence.
Qed.

Lemma kept_by_snoc path (l : list Observer) h :
  kept_by path (l ++ [{| matcher := MString path; handler := h |}])
    = kept_by path l.
Proof.
  unfold kept_by. rewrite List.filter_app. simpl.
  rewrite bool_decide_eq_true_2 by done. simpl. apply app_nil_r.
Qed.

Lemma removed_by_snoc path (l : list Observer) h :
  removed_by path (l ++ [{| matcher := MString path; handler := h |}])
    = removed_by path l ++ [{| matcher := MString path; handler := h |}].
Proof.
  unfold removed_by. rewrite List.filter_app. simpl.
  by rewrite bool_decide_eq_true_2 by done.
Qed.

(** X4.  Registration and removal undo each other.  If no observer has
    the string [p] as its matcher and [observe(p, h)] returns, then
    [unobserve(p)] on the result returns with the registry as it was
    before [observe]; it sends one UNSUBSCRIBE frame for [p] if
    [this.socket] is set and open, and no frame otherwise. *)
Theorem observe_then_unobserve_restores_registry (w w1 : World) (p : string)
    (h : Handler) :
  (forall x, x ∈ observers (this w) -> matcher x <> MString p) ->
  observe (MString p) h w = Returns tt w1 ->
  exists w2,
    unobserve p w1 = Returns tt w2 /\
    observers (this w2) = observers (this w) /\
    (socket_is_open w1 = false -> trace w2 = trace w1) /\
    (forall t, socket (this w1) = Some t -> socket_is_open w1 = true ->
       trace w2 = trace w1 ++ [Send t (unsubscribe_frame p)]).
Proof.
  intros Hnone Hobs.
  pose proof (observe_registry w (MString p) h) as Hreg.
  rewrite Hobs in Hreg.
  rewrite unobserve_eq. eexists. split; [reflexivity|]. simpl.
  rewrite Hreg, kept_by_snoc, (kept_by_all p _ Hnone).
  split; [done|]. unfold unsubscribe_events.
  rewrite Hreg, removed_by_snoc, (removed_by_none p _ Hnone). simpl. split.
  - intros Hopen. rewrite Hopen. destruct (socket (this w1)); apply app_nil_r.
  - intros t Ht Hopen. by rewrite Ht, Hopen.
Qed.

(** X5.  [unobserve] is idempotent: it always returns, and a second
    call with the same path on the result changes nothing, sending no
    frame. *)
Theorem unobserve_twice_is_unobserve_once (w : World) (path : string) :
  exists w1,
    unobserve path w = Returns tt w1 /\
    unobserve path w1 = Returns tt w1.
Proof.
  rewrite unobserve_eq.
  set (w1 := upd_this (set_observers (kept_by path (observers (this w))))
               (records (unsubscribe_events path w) w)).
  exists w1. split; [reflexivity|]. rewrite unobserve_eq. f_equal.
  assert (Hev : unsubscribe_events path w1 = []).
  { unfold unsubscribe_events. subst w1. simpl.
    rewrite removed_by_kept_by.
    destruct (socket (this w)); [|done]. by destruct (socket_is_open _). }
  rewrite Hev, records_nil.
  assert (Hk : kept_by path (observers (this w1)) = observers (this w1)).
  { subst w1. simpl. apply kept_by_kept_by. }
  rewrite Hk. apply set_observers_same.
Qed.

(** *** Frames that arrive twice, or that nobody routes *)

(** X6.  A RESPONSE frame that arrives a second time is ignored: after
    the router has handled the frame, handling the same frame again
    returns the world unchanged. *)
Theorem duplicate_response_ignored (w : World) (text : string) (id st : Z)
    (c : JSValue) :
  opcodes_distinct ->
  JSON_parse text = Some (JArray [JNumber RESPONSE; JNumber id; JNumber st; c]) ->
  exists w1,
    handleWebsocketMessage text w = Returns tt w1 /\
    handleWebsocketMessage text w1 = Returns tt w1.
Proof.
  intros Hd Hp. rewrite (handle_response_eq w text id st c Hd Hp).
  destruct (requests (this w) !! id) as [p|] eqn:Hreq.
  - destruct (resolve_promise_frame p {| status := st; content := c |}
                (record (Resolve p {| status := st; content := c |}) w))
      as (w1 & Hres & Hthis & _).
    rewrite Hres. eexists. split; [reflexivity|].
    rewrite (handle_response_eq _ text id st c Hd Hp). simpl.
    by rewrite lookup_delete_eq.
  - exists w. split; [reflexivity|].
    by rewrite (handle_response_eq w text id st c Hd Hp), Hreq.
Qed.

(** X7.  A frame that parses to an array whose first element is none of
    the opcodes UPDATE, RESPONSE and HANDSHAKE_COMPLETE (another number,
    a value that is not a number, or no element at all) is ignored: the
    router returns the world unchanged. *)
Theorem unrouted_frame_ignored (w : World) (text : string) (data : list JSValue) :
  JSON_parse text = Some (JArray data) ->
  (forall n, index data 0 = JNumber n ->
     n <> UPDATE /\ n <> RESPONSE /\ n <> HANDSHAKE_COMPLETE) ->
  handleWebsocketMessage text w = Returns tt w.
Proof.
  intros Hp Hop. unfold handleWebsocketMessage. rewrite Hp. simpl as_tuple. run.
  unfold route_update, route_response, route_handshake_complete.
  destruct (index data 0) as [| | |n| | |]; simpl; try reflexivity.
  destruct (Hop n eq_refl) as (Hu & Hr & Hh).
  rewrite !bool_decide_eq_false_2 by done. reflexivity.
Qed.

(** *** A handler that raises *)

Lemma forEach_app {A} (f : A -> M unit) (l1 l2 : list A) w :
  forEach f (l1 ++ l2) w = bind (forEach f l1) (fun _ => forEach f l2) w.
Proof.
  revert w. induction l1 as [|x l1 IH]; intros w; [reflexivity|].
  simpl. rewrite bind_bind.
  destruct (f x w) as [a w'|e w'|] eqn:Hf.
  - rewrite !(bind_returns _ _ _ _ _ Hf). apply IH.
  - by rewrite !(bind_throws _ _ _ _ _ Hf).
  - unfold bind. by rewrite Hf.
Qed.

(** X8.  The dispatch of an UPDATE frame does not isolate handlers.  If
    the handler of a matching observer raises, the handlers of the
    matching observers registered before it having returned, the router
    throws that exception: the trace holds the calls up to and including
    the raising one, the handlers of the observers registered after it
    are not called, and the session is otherwise untouched. *)
Theorem update_handler_exception_aborts_dispatch (w : World) (text path : string)
    (st : Z) (c : JSValue) (l1 l2 : list Observer) (x : Observer) (e : JSError) :
  opcodes_distinct ->
  JSON_parse text = Some (JArray [JNumber UPDATE; JString path; JNumber st; c]) ->
  observers (this w) = l1 ++ x :: l2 ->
  accepts path (matcher x) = true ->
  handler_raises (handler x) {| status := st; content := c |} = Some e ->
  (forall y, y ∈ l1 -> accepts path (matcher y) = true ->
     handler_raises (handler y) {| status := st; content := c |} = None) ->
  handleWebsocketMessage text w
    = Throws e
        (records
           (map (fun y => Invoke (handler y) {| status := st; content := c |})
              (List.filter (fun y => accepts path (matcher y)) l1)
            ++ [Invoke (handler x) {| status := st; content := c |}])
           w).
Proof.
  intros Hd Hp Hobs Hacc Hraise Hok.
  unfold handleWebsocketMessage. rewrite Hp. simpl as_tuple. run.
  apply bind_throws.
  unfold route_update at 1. unfold index at 1. cbn [nth].
  rewrite strict_eq_number_same. run.
  rewrite (bind_returns _ _ _ _ _ (filterM_update_matches _ _ _ _ _)).
  rewrite Hobs, List.filter_app. simpl. rewrite Hacc.
  rewrite forEach_app.
  erewrite bind_returns; last first.
  { apply forEach_update_notify. intros y Hy.
    apply list_elem_of_In, filter_In in Hy as [Hy Hy'].
    apply Hok; [by apply list_elem_of_In|done]. }
  simpl forEach. apply bind_throws.
  unfold update_notify, index, call. cbn [nth unary_plus]. run.
  rewrite Hraise. unfold throw.
  by rewrite record_records, records_records.
Qed.

(** *** Closing and connecting *)

Lemma close_eq w t :
  socket (this w) = Some t ->
  close w
    = Returns tt
        {| this := set_connected false
                     (set_connecting false (set_socket None (this w)));
           heap := alter closed_RiftSocket t (heap w);
           promises := promises w;
           microtasks := microtasks w;
           trace := trace w ++ [Detach t Onopen; Detach t Onmessage;
                                Detach t Onclose; CloseTransport t] |}.
Proof.
  intros Ht. unfold close. rewrite bind_get_this, Ht.
  erewrite bind_returns by (by apply detach_eq).
  erewrite bind_returns by (by apply detach_eq).
  erewrite bind_returns by (by apply detach_eq).
  erewrite bind_returns by (by apply socket_close_eq).
  rewrite !bind_modify. destruct w as [s hp ps ms tr].
  cbv [modify upd_this upd_heap record this heap promises microtasks trace].
  rewrite <- !app_assoc. simpl. do 2 f_equal.
  rewrite !list_alter_alter_eq. apply list_alter_ext; [|done].
  intros rs _. by destruct rs.
Qed.

(** X9.  After [close()] the transport that the session owned is
    silent: whichever event it fires next, open, message or close, no
    handler of the session runs and the world stays as [close()] left
    it. *)
Theorem close_silences_transport (w : World) (t : nat) (ev : TransportEvent) :
  socket (this w) = Some t ->
  exists w1,
    close w = Returns tt w1 /\
    fire t ev w1 = Returns tt w1.
Proof.
  intros Ht. rewrite (close_eq w t Ht). eexists. split; [reflexivity|].
  unfold fire. simpl. rewrite list_lookup_alter_eq.
  destruct (heap w !! t) as [rs|]; simpl; [|done]. by destruct ev.
Qed.

Lemma connect_failure_eq w c e :
  RiftSocket_new c = inl e ->
  connect c w
    = Returns tt
        (records [Log "[-] Error during connect:"; Log (message e)]
           (upd_this (set_code c) (upd_this (set_connecting true) w))).
Proof.
  intros Hnew. unfold connect. rewrite Hnew. run. unfold emit.
  by rewrite !record_records, records_records.
Qed.

(** X10.  When the constructor of the transport throws, [connect(code)]
    swallows the exception: it returns normally after two console lines,
    with [code] stored and [connecting] left true, and the transport the
    session owned, its [connected] flag and the heap are as before.  As
    [connecting] is now true, a close event of a transport with the
    handler installed is then taken for a failed attempt: [connected] keeps
    its value. *)
Theorem connect_swallows_constructor_failure (w : World) (c : string)
    (e : JSError) :
  RiftSocket_new c = inl e ->
  exists w',
    connect c w = Returns tt w' /\
    connecting (this w') = true /\ code (this w') = c /\
    socket (this w') = socket (this w) /\
    connected (this w') = connected (this w) /\
    heap w' = heap w /\
    trace w' = trace w ++ [Log "[-] Error during connect:"; Log (message e)] /\
    forall t rs reason,
      heap w !! t = Some rs -> onclose rs = true ->
      exists w'',
        fire t (CloseEvent reason) w' = Returns tt w'' /\
        connected (this w'') = connected (this w).
Proof.
  intros Hnew. rewrite (connect_failure_eq w c e Hnew).
  eexists. split; [reflexivity|]. split_and!; try done.
  intros t rs reason Hrs Hon. unfold fire. simpl. rewrite Hrs, Hon.
  unfold on_close. rewrite bind_get_this. simpl. by eexists.
Qed.

(** X11.  When the constructor succeeds, [connect(code)] installs its
    three handlers on a new transport, which becomes [this.socket], and
    does nothing to the transports that exist: each keeps its handlers
    and is not closed.  It sends no frame, and it leaves [connected], the
    observers, the pending requests and the counter as they were. *)
Theorem connect_keeps_previous_transport (w : World) (c : string) (state : Z) :
  RiftSocket_new c = inr state ->
  exists w',
    connect c w = Returns tt w' /\
    socket (this w') = Some (length (heap w)) /\
    heap w' !! length (heap w)
      = Some {| rs_code := c; onopen := true; onmessage := true;
                onclose := true; readyState := state; closed := false |} /\
    (forall t rs, heap w !! t = Some rs -> heap w' !! t = Some rs) /\
    connecting (this w') = true /\ code (this w') = c /\
    connected (this w') = connected (this w) /\
    observers (this w') = observers (this w) /\
    requests (this w') = requests (this w) /\
    idCounter (this w') = idCounter (this w) /\
    trace w' = trace w.
Proof.
  intros Hnew. rewrite (connect_eq w c state Hnew).
  eexists. split; [reflexivity|]. simpl. split_and!; try done.
  - rewrite lookup_app_r by done. by rewrite Nat.sub_diag.
  - intros t rs Hrs. by apply lookup_app_l_Some.
Qed.

Lemma connect_returns w c :
  exists w', connect c w = Returns tt w' /\ code (this w') = c.
Proof.
  destruct (RiftSocket_new c) as [e|state] eqn:Hnew.
  - rewrite (connect_failure_eq w c e Hnew). by eexists.
  - rewrite (connect_eq w c state Hnew). by eexists.
Qed.

(** X12.  [tryReconnect()] is [connect] with the code of the last call
    of [connect], whether that call got a transport or not, and also
    after a [close()] in between. *)
Theorem tryReconnect_reuses_last_code (w : World) (c : string) :
  exists w1,
    connect c w = Returns tt w1 /\
    tryReconnect w1 = connect c w1 /\
    forall w2, close w1 = Returns tt w2 -> tryReconnect w2 = connect c w2.
Proof.
  destruct (connect_returns w c) as (w1 & Hconnect & Hcode).
  exists w1. split; [exact Hconnect|]. split.
  - unfold tryReconnect. rewrite bind_get_this. by rewrite Hcode.
  - intros w2 Hclose. unfold tryReconnect. rewrite bind_get_this.
    replace (code (this w2)) with c; [done|].
    destruct (socket (this w1)) as [t|] eqn:Ht.
    + rewrite (close_eq w1 t Ht) in Hclose. inversion Hclose; subst w2.
      by rewrite <- Hcode.
    + unfold close in Hclose. rewrite bind_get_this, Ht in Hclose.
      inversion Hclose; subst w2. by rewrite <- Hcode.
Qed.

(** X13.  When a transport with the handler installed fires its close
    event while [connecting] is false, the session only clears
    [connected] and logs: it keeps the reference to the transport, the
    observers, and the pending requests, whose promises stay as they
    are; and a [request] made in the world that the event leaves
    throws. *)
Theorem close_event_of_established_session (w : World) (t : nat)
    (rs : RiftSocket) (reason : string) :
  heap w !! t = Some rs ->
  onclose rs = true ->
  connecting (this w) = false ->
  exists w',
    fire t (CloseEvent reason) w = Returns tt w' /\
    this w' = set_connected false (this w) /\
    heap w' = heap w /\ promises w' = promises w /\
    trace w' = trace w ++ [Log "Connection to host closed."] /\
    forall path method body,
      request path method body w' = Throws (Error "Not connected.") w'.
Proof.
  intros Hrs Hon Hc. unfold fire. rewrite Hrs, Hon.
  unfold on_close. rewrite bind_get_this, Hc. run.
  eexists. split; [reflexivity|]. by split_and!.
Qed.

(** *** What the primitives keep, every job keeps *)

Section Kept.
Variable I : World -> Prop.
Hypothesis I_trace : forall es w, I w -> I (records es w).
Hypothesis I_heap : forall f w, I w -> I (upd_heap f w).
Hypothesis I_connected : forall b w, I w -> I (upd_this (set_connected b) w).
Hypothesis I_connecting : forall b w, I w -> I (upd_this (set_connecting b) w).
Hypothesis I_socket : forall t w, I w -> I (upd_this (set_socket t) w).
Hypothesis I_code : forall c w, I w -> I (upd_this (set_code c) w).
Hypothesis I_name : forall n w, I w -> I (upd_this (set_computerName n) w).
Hypothesis I_version : forall v w, I w -> I (upd_this (set_computerVersion v) w).
Hypothesis I_token :
  forall k w, I w -> I (upd_this (set_pushNotificationSubscriptionToken k) w).
Hypothesis I_observers : forall l w, I w -> I (upd_this (set_observers l) w).
Hypothesis I_request : forall path method body, preserves I (request path method body).
Hypothesis I_then : forall p h, preserves I (then_ p h).
Hypothesis I_response : forall data, preserves I (route_response data).
Hypothesis I_drain : forall w, I w -> I (drain w).

Lemma kept_get : preserves I get_this.
Proof. intros w Hw. exact Hw. Qed.

Lemma kept_emit e : preserves I (emit e).
Proof. intros w Hw. simpl. rewrite record_records. by apply I_trace. Qed.

Lemma kept_send text : preserves I (send text).
Proof.
  intros w Hw. destruct (socket (this w)) as [t|] eqn:Ht.
  - rewrite (send_eq _ w t Ht), record_records. by apply I_trace.
  - by rewrite (send_unset _ w Ht).
Qed.

Lemma kept_detach k : preserves I (detach k).
Proof.
  intros w Hw. destruct (socket (this w)) as [t|] eqn:Ht.
  - rewrite (detach_eq k w t Ht), record_records. by apply I_trace, I_heap.
  - unfold detach. by rewrite (with_socket_unset _ w Ht).
Qed.

Lemma kept_attach k : preserves I (attach k).
Proof.
  intros w Hw. destruct (socket (this w)) as [t|] eqn:Ht.
  - rewrite (attach_eq k w t Ht). by apply I_heap.
  - unfold attach. by rewrite (with_socket_unset _ w Ht).
Qed.

Lemma kept_socket_close : preserves I socket_close.
Proof.
  intros w Hw. destruct (socket (this w)) as [t|] eqn:Ht.
  - rewrite (socket_close_eq w t Ht), record_records. by apply I_trace, I_heap.
  - unfold socket_close. by rewrite (with_socket_unset _ w Ht).
Qed.

Lemma kept_call h r : preserves I (call h r).
Proof.
  unfold call. apply preserves_bind; [apply kept_emit|].
  intros _. destruct (handler_raises h r);
    [apply preserves_throw|apply preserves_ret].
Qed.

Lemma kept_bootstrap m h : preserves I (bootstrap m h).
Proof.
  destruct m as [p|r]; simpl; [|apply preserves_ret].
  apply preserves_bind; [apply I_request|]. intros pr. apply I_then.
Qed.

Lemma kept_populate x : preserves I (populate x).
Proof.
  unfold populate. apply preserves_bind; [apply kept_send|].
  intros _. apply kept_bootstrap.
Qed.

Lemma kept_observe path h : preserves I (observe path h).
Proof.
  unfold observe. apply preserves_bind; [apply kept_get|]. intros s.
  apply preserves_bind.
  - destruct (connected s); [|apply preserves_ret].
    apply preserves_bind; [apply kept_bootstrap|]. intros _. apply kept_send.
  - intros _. apply preserves_bind; [apply kept_get|]. intros s'.
    intros w Hw. by apply I_observers.
Qed.

Lemma kept_unobserve path : preserves I (unobserve path).
Proof.
  intros w Hw. rewrite unobserve_eq. by apply I_observers, I_trace.
Qed.

Lemma kept_route_update data : preserves I (route_update data).
Proof.
  unfold route_update.
  destruct (strict_eq_number (index data 0) UPDATE); [|apply preserves_ret].
  apply preserves_bind; [apply kept_get|]. intros s.
  apply preserves_bind.
  - apply preserves_filterM. intros x. unfold update_matches.
    destruct (matcher x); [apply preserves_ret|].
    apply preserves_bind; [apply preserves_as_string|].
    intros path. apply preserves_ret.
  - intros matching. apply preserves_forEach. intros x. unfold update_notify.
    apply preserves_bind; [apply preserves_unary_plus|].
    intros st. apply kept_call.
Qed.

Lemma kept_route_handshake_complete data :
  preserves I (route_handshake_complete data).
Proof.
  unfold route_handshake_complete.
  destruct (strict_eq_number (index data 0) HANDSHAKE_COMPLETE);
    [|apply preserves_ret].
  apply preserves_bind; [apply preserves_as_string|]. intros name.
  apply preserves_bind; [apply kept_emit|]. intros _.
  apply preserves_bind; [apply preserves_as_string|]. intros token.
  apply preserves_bind; [intros w Hw; by apply I_token|]. intros _.
  apply preserves_bind; [intros w Hw; by apply I_name|]. intros _.
  apply preserves_bind; [apply preserves_as_string|]. intros version.
  apply preserves_bind; [intros w Hw; by apply I_version|]. intros _.
  apply preserves_bind; [apply kept_get|]. intros s.
  apply preserves_bind; [apply kept_emit|]. intros _.
  apply preserves_forEach. intros x. apply kept_populate.
Qed.

Lemma kept_handleWebsocketMessage text :
  preserves I (handleWebsocketMessage text).
Proof.
  unfold handleWebsocketMessage.
  destruct (JSON_parse text) as [v|]; [|apply kept_emit].
  apply preserves_bind; [apply preserves_as_tuple|]. intros data.
  apply preserves_bind; [apply kept_route_update|]. intros _.
  apply preserves_bind; [apply I_response|]. intros _.
  apply kept_route_handshake_complete.
Qed.

Lemma kept_close : preserves I close.
Proof.
  unfold close. apply preserves_bind; [apply kept_get|]. intros s.
  destruct (socket s); [|apply preserves_ret].
  apply preserves_bind; [apply kept_detach|]. intros _.
  apply preserves_bind; [apply kept_detach|]. intros _.
  apply preserves_bind; [apply kept_detach|]. intros _.
  apply preserves_bind; [apply kept_socket_close|]. intros _.
  apply preserves_bind; [intros w Hw; by apply I_socket|]. intros _.
  apply preserves_bind; [intros w Hw; by apply I_connecting|]. intros _.
  intros w Hw. by apply I_connected.
Qed.

Lemma kept_on_open : preserves I on_open.
Proof.
  unfold on_open.
  apply preserves_bind; [intros w Hw; by apply I_connected|]. intros _.
  apply preserves_bind; [intros w Hw; by apply I_connecting|]. intros _.
  apply kept_send.
Qed.

Lemma kept_on_close reason : preserves I (on_close reason).
Proof.
  unfold on_close. apply preserves_bind; [apply kept_get|]. intros s.
  destruct (connecting s); [apply kept_emit|].
  apply preserves_bind; [intros w Hw; by apply I_connected|]. intros _.
  apply kept_emit.
Qed.

Lemma kept_connect c : preserves I (connect c).
Proof.
  intros w Hw. destruct (RiftSocket_new c) as [e|state] eqn:Hnew.
  - rewrite (connect_failure_eq w c e Hnew).
    by apply I_trace, I_code, I_connecting.
  - rewrite (connect_eq w c state Hnew).
    replace (after_connect c state w)
      with (upd_this (set_socket (Some (length (heap w))))
              (upd_this (set_code c)
                 (upd_this (set_connecting true)
                    (upd_heap (fun hp => hp ++
                       [{| rs_code := c; onopen := true; onmessage := true;
                           onclose := true; readyState := state;
                           closed := false |}]) w)))) by reflexivity.
    by apply I_socket, I_code, I_connecting, I_heap.
Qed.

Lemma kept_tryReconnect : preserves I tryReconnect.
Proof.
  unfold tryReconnect. apply preserves_bind; [apply kept_get|].
  intros s. apply kept_connect.
Qed.

Lemma kept_fire t ev : preserves I (fire t ev).
Proof.
  intros w Hw. unfold fire. destruct (heap w !! t) as [rs|]; [|exact Hw].
  destruct ev as [|d|r].
  - destruct (onopen rs); [by apply kept_on_open|exact Hw].
  - destruct (onmessage rs); [by apply kept_handleWebsocketMessage|exact Hw].
  - destruct (onclose rs); [by apply kept_on_close|exact Hw].
Qed.

(** The jobs other than [observe] and [unobserve]. *)
Lemma kept_run_other o : is_registration o = false -> preserves I (run o).
Proof.
  destruct o; simpl; try discriminate; intros _.
  - apply preserves_bind; [apply I_request|intros _; apply preserves_ret].
  - apply kept_close.
  - apply kept_connect.
  - apply kept_tryReconnect.
  - apply kept_fire.
  - intros w Hw. by apply I_heap.
Qed.

Lemma kept_run o : preserves I (run o).
Proof.
  destruct (is_registration o) eqn:Hreg; [|by apply kept_run_other].
  destruct o; try discriminate; simpl.
  - apply kept_observe.
  - apply kept_unobserve.
Qed.

Lemma kept_job {A} (m : M A) : preserves I m -> preserves I (job m).
Proof.
  intros Hm w Hw. unfold job. specialize (Hm w Hw).
  destruct (m w); try done; by apply I_drain.
Qed.

Lemma kept_step o : preserves I (step o).
Proof. apply kept_job, kept_run. Qed.


Lemma kept_reachable w : I initial_World -> reachable w -> I w.
Proof.
  intros Hinit. induction 1 as [|o w w' _ IH Hstep|o w e w' _ IH Hstep].
  - exact Hinit.
  - pose proof (kept_step o w IH) as Hk. by rewrite Hstep in Hk.
  - pose proof (kept_step o w IH) as Hk. by rewrite Hstep in Hk.
Qed.

End Kept.

(** *** Fields of the session that the traffic leaves alone *)

Lemma request_keeps {B} (g : Socket -> B) (b : B) path method body :
  (forall n s, g (set_idCounter n s) = g s) ->
  (forall m s, g (set_requests m s) = g s) ->
  preserves (fun w => g (this w) = b) (request path method body).
Proof.
  intros Hn Hm w Hw. destruct (connected (this w)) eqn:Hc;
    [|by rewrite (request_not_connected_eq w path method body Hc)].
  destruct (socket (this w)) as [t|] eqn:Ht.
  - rewrite (request_connected_eq w t path method body Hc Ht).
    unfold after_request; simpl. by rewrite Hm, Hn.
  - rewrite (request_unset_eq w path method body Hc Ht). simpl. by rewrite Hn.
Qed.

Lemma then_keeps {B} (g : Socket -> B) (b : B) p h :
  preserves (fun w => g (this w) = b) (then_ p h).
Proof.
  intros w Hw. unfold then_.
  by destruct (promises w !! p) as [[[|r'|e'] hs]|].
Qed.




(** *** HANDSHAKE_COMPLETE on any session *)

(** X16.  A HANDSHAKE_COMPLETE frame records the identity before it
    replays the observers.  Whatever the state of the session, and
    whether the router returns or the replay throws, afterwards the
    three identity fields hold the values of the frame, and [connected],
    [connecting], [this.socket], the code and the observers are as
    before. *)
Theorem handshake_complete_records_identity (w : World) (text : string)
    (version name token : string) :
  opcodes_distinct ->
  JSON_parse text
    = Some (JArray [JNumber HANDSHAKE_COMPLETE; JString version; JString name;
                    JString token]) ->
  match handleWebsocketMessage text w with
  | Returns _ w' | Throws _ w' =>
      computerVersion (this w') = version /\
      computerName (this w') = name /\
      pushNotificationSubscriptionToken (this w') = token /\
      connected (this w') = connected (this w) /\
      connecting (this w') = connecting (this w) /\
      socket (this w') = socket (this w) /\
      code (this w') = code (this w) /\
      observers (this w') = observers (this w)
  | Untyped => True
  end.
Proof.
  intros Hd Hp.
  rewrite (handle_handshake_complete_eq w text version name token Hd Hp).
  set (w0 := with_identity version name token w).
  assert (Hkeep : preserves (fun w' => replay_frame_fields (this w')
                                      = replay_frame_fields (this w0))
                     (forEach populate (observers (this w)))).
  { apply preserves_forEach. intros x. apply kept_populate.
    - done.
    - intros path method body. by apply (request_keeps replay_frame_fields).
    - intros p h. apply (then_keeps replay_frame_fields). }
  specialize (Hkeep w0 eq_refl).
  destruct (forEach populate (observers (this w)) w0) as [a w'|e w'|];
    try done; unfold replay_frame_fields in Hkeep; simpl in Hkeep;
    inversion Hkeep; by split_and!.
Qed.

(** *** Pending requests and their promises *)

Lemma ppo_ext w w' :
  pending_promises_ok w ->
  requests (this w') = requests (this w) ->
  promises w' = promises w ->
  pending_promises_ok w'.
Proof.
  intros [Ha Hb] Er Ep. split.
  - intros id p. rewrite Er, Ep. apply Ha.
  - intros id id' p. rewrite Er. apply Hb.
Qed.

Lemma ppo_grow w (pr : Promise) :
  pending_promises_ok w ->
  pending_promises_ok (upd_promises (fun l => l ++ [pr]) w).
Proof.
  intros [Ha Hb]. split; simpl; [|exact Hb].
  intros id p Hid. destruct (Ha id p Hid) as [hs Hhs]. exists hs.
  by apply lookup_app_l_Some.
Qed.

Lemma ppo_request path method body :
  preserves pending_promises_ok (request path method body).
Proof.
  intros w Hw. destruct (connected (this w)) eqn:Hc;
    [|by rewrite (request_not_connected_eq w path method body Hc)].
  destruct (socket (this w)) as [t|] eqn:Ht.
  - rewrite (request_connected_eq w t path method body Hc Ht).
    destruct Hw as [Ha Hb].
    assert (Hfresh : forall id, requests (this w) !! id <> Some (length (promises w))).
    { intros id Hid. destruct (Ha id _ Hid) as [hs Hhs].
      apply lookup_lt_Some in Hhs. lia. }
    unfold after_request. split; simpl.
    + intros id p. rewrite lookup_insert. case_decide.
      * intros Hp. inversion Hp; subst p. exists [].
        rewrite lookup_app_r by done. by rewrite Nat.sub_diag.
      * intros Hid. destruct (Ha id p Hid) as [hs Hhs]. exists hs.
        by apply lookup_app_l_Some.
    + intros id id' p. rewrite !lookup_insert.
      repeat case_decide; subst; try done.
      * intros Hp Hid'. inversion Hp; subst p. by destruct (Hfresh id').
      * intros Hid Hp. inversion Hp; subst p. by destruct (Hfresh id).
      * apply Hb.
  - rewrite (request_unset_eq w path method body Hc Ht).
    apply (ppo_ext (upd_promises (fun l => l ++ [{| pstate :=
             Rejected (TypeError "this.socket is not an object");
             reactions := [] |}]) w)); [by apply ppo_grow|done|done].
Qed.

Lemma ppo_then p h : preserves pending_promises_ok (then_ p h).
Proof.
  intros w Hw. unfold then_.
  destruct (promises w !! p) as [[[|r'|e'] hs]|] eqn:Hp; try done.
  - destruct Hw as [Ha Hb]. split; simpl; [|exact Hb].
    intros id q Hid. destruct (Ha id q Hid) as [hs' Hhs'].
    destruct (decide (q = p)) as [->|Hne].
    + eexists. apply list_lookup_insert_eq. by eapply lookup_lt_Some.
    + exists hs'. by rewrite list_lookup_insert_ne.
  - by apply (ppo_ext w).
Qed.

Lemma ppo_response data : preserves pending_promises_ok (route_response data).
Proof.
  unfold route_response.
  destruct (strict_eq_number (index data 0) RESPONSE); [|apply preserves_ret].
  apply preserves_bind; [apply preserves_as_number|]. intros id.
  apply preserves_get_this. intros w Hw.
  destruct (requests (this w) !! id) as [p|] eqn:Hid; [|exact Hw].
  destruct (index data 2) as [| | |st| | |]; try exact Logic.I.
  simpl as_number. run. destruct Hw as [Ha Hb].
  destruct (Ha id p Hid) as [hs Hhs].
  erewrite bind_returns by (by apply (resolve_promise_pending_eq p _ hs)).
  run. simpl. split; simpl.
  - intros id' q. rewrite lookup_delete. case_decide; [done|].
    intros Hid'. destruct (Ha id' q Hid') as [hs' Hhs']. exists hs'.
    rewrite list_lookup_insert_ne; [done|].
    intros ->. by destruct (Hb id id' q).
  - intros id1 id2 q. rewrite !lookup_delete.
    repeat case_decide; try done. apply Hb.
Qed.

Lemma ppo_step o : preserves pending_promises_ok (step o).
Proof.
  apply kept_step; try (intros; by eapply ppo_ext).
  - apply ppo_request.
  - apply ppo_then.
  - apply ppo_response.
Qed.

Lemma ppo_reachable w : reachable w -> pending_promises_ok w.
Proof.
  induction 1 as [|o w w' _ IH Hstep|o w e w' _ IH Hstep].
  - split; simpl; intros id; intros; by rewrite lookup_empty in *.
  - pose proof (ppo_step o w IH) as Hk. by rewrite Hstep in Hk.
  - pose proof (ppo_step o w IH) as Hk. by rewrite Hstep in Hk.
Qed.

(** X17.  A completion is never lost to a settled promise.  Every job
    keeps that each pending request refers to a promise that is still
    pending and that no two pending requests share a promise, and this
    holds in every reachable world.  Hence in a reachable world the
    RESPONSE frame for a pending id always fulfils the promise of that
    request and calls every handler chained on it, once each, with the
    result of the frame. *)
Theorem pending_requests_have_pending_promises :
  (forall w o, pending_promises_ok w ->
     match step o w with
     | Returns _ w' | Throws _ w' => pending_promises_ok w'
     | Untyped => True
     end) /\
  (forall w, reachable w -> pending_promises_ok w) /\
  (forall w text id st c p,
     opcodes_distinct -> reachable w ->
     JSON_parse text = Some (JArray [JNumber RESPONSE; JNumber id; JNumber st; c]) ->
     requests (this w) !! id = Some p ->
     exists hs w',
       promises w !! p = Some {| pstate := Pending; reactions := hs |} /\
       job (handleWebsocketMessage text) w = Returns tt w' /\
       promises w' !! p
         = Some {| pstate := Fulfilled {| status := st; content := c |};
                   reactions := [] |} /\
       trace w' = trace w ++
         Resolve p {| status := st; content := c |}
           :: map (fun h => Invoke h {| status := st; content := c |}) hs).
Proof.
  split_and!.
  - intros w o Hw. exact (ppo_step o w Hw).
  - exact ppo_reachable.
  - intros w text id st c p Hd Hreach Hp Hid.
    destruct (ppo_pending w (ppo_reachable w Hreach) id p Hid) as [hs Hhs].
    exists hs. eexists. split; [exact Hhs|].
    rewrite (response_job_eq w text id st c p hs Hd Hp Hid Hhs
               (reachable_idle w Hreach)).
    split; [reflexivity|]. simpl. split; [|done].
    apply list_lookup_insert_eq. by eapply lookup_lt_Some.
Qed.

(** *** The getters *)

Section GettersProperties.
Context `{TransportView}.

(** X18.  [state] never yields the value DISCONNECTED, for which it
    yields null; a session that owns no transport has the ping [-1] and
    the state null, and so has every session after [close()], whatever
    it was before. *)
Theorem getters_of_a_session_without_transport :
  (forall w, state w <> Some DISCONNECTED) /\
  (forall w, socket (this w) = None -> ping w = -1 /\ state w = None) /\
  (forall w, exists w',
     close w = Returns tt w' /\ ping w' = -1 /\ state w' = None).
Proof.
  split_and!.
  - intros w. unfold state. destruct (socket (this w)) as [t|]; [|done].
    case_bool_decide as Hs; [done|]. intros Heq. by inversion Heq.
  - intros w Hs. unfold ping, state. by rewrite Hs.
  - intros w. destruct (socket (this w)) as [t|] eqn:Ht.
    + rewrite (close_eq w t Ht). eexists. by split; [reflexivity|].
    + exists w. unfold close, ping, state. rewrite bind_get_this, Ht. done.
Qed.

End GettersProperties.

(** *** A replay on a session that is not connected *)

Lemma forEach_populate_patterns t (l : list Observer) w :
  socket (this w) = Some t ->
  (forall y, y ∈ l -> exists r, matcher y = MRegExp r) ->
  forEach populate l w = Returns tt (records (subscribe_events t l) w).
Proof.
  revert w. induction l as [|y l IH]; intros w Ht Hall.
  - simpl. by rewrite records_nil.
  - simpl forEach. unfold populate at 1. rewrite bind_bind.
    erewrite bind_returns by (by apply send_eq).
    destruct (Hall y) as [r Hr]; [apply list_elem_of_here|].
    rewrite Hr. simpl bootstrap. run.
    rewrite IH; [|done|intros z Hz; apply Hall; by apply list_elem_of_further].
    rewrite record_records, records_records. unfold subscribe_events. simpl.
    by rewrite Hr.
Qed.

(** X19.  The replay of a HANDSHAKE_COMPLETE frame needs [connected]
    only for bootstrap requests.  On a session that owns transport [t]
    with [connected] false, the identity is recorded and the SUBSCRIBE
    frames go out in the order of registration up to and including the
    first observer with a string matcher, at whose bootstrap request the
    router throws "Not connected."; the later observers get no frame and
    no request is recorded.  If all observers have patterns, the replay
    sends every SUBSCRIBE frame and returns. *)
Theorem handshake_replay_stops_when_not_connected (w : World) (text : string)
    (version name token : string) (t : nat) :
  opcodes_distinct ->
  JSON_parse text
    = Some (JArray [JNumber HANDSHAKE_COMPLETE; JString version; JString name;
                    JString token]) ->
  connected (this w) = false ->
  socket (this w) = Some t ->
  (forall l1 x l2 p,
     observers (this w) = l1 ++ x :: l2 ->
     (forall y, y ∈ l1 -> exists r, matcher y = MRegExp r) ->
     matcher x = MString p ->
     handleWebsocketMessage text w
       = Throws (Error "Not connected.")
           (records (subscribe_events t (l1 ++ [x]))
              (with_identity version name token w))) /\
  ((forall y, y ∈ observers (this w) -> exists r, matcher y = MRegExp r) ->
   handleWebsocketMessage text w
     = Returns tt
         (records (subscribe_events t (observers (this w)))
            (with_identity version name token w))).
Proof.
  intros Hd Hp Hc Ht.
  rewrite (handle_handshake_complete_eq w text version name token Hd Hp).
  split.
  - intros l1 x l2 p Hobs Hl1 Hx. rewrite Hobs, forEach_app.
    erewrite bind_returns by (by apply forEach_populate_patterns).
    simpl forEach. apply bind_throws. unfold populate.
    erewrite bind_returns by (by apply send_eq).
    rewrite Hx. simpl bootstrap. apply bind_throws.
    rewrite request_not_connected_eq by done.
    rewrite record_records, records_records.
    unfold subscribe_events. rewrite map_app. simpl. by rewrite Hx.
  - intros Hall. by apply forEach_populate_patterns.
Qed.

(** *** The transports of a session *)

Lemma live_not_silent rs : live rs -> silent rs -> False.
Proof. intros (Hl & _) (Hs & _). congruence. Qed.

Lemma tok_ext w w' :
  transports_ok w ->
  heap w' = heap w -> socket (this w') = socket (this w) ->
  transports_ok w'.
Proof.
  intros [Ha Hb] Eh Es. split.
  - intros t. rewrite Es, Eh. apply Ha.
  - intros t rs. rewrite Eh. apply Hb.
Qed.

(** Registrations, requests and events leave the heap of transports and
    [this.socket] alone. *)
Lemma traffic_keeps_transports (o : Op) (w : World) :
  match o with Observe _ _ | Unobserve _ | Request _ _ _ | Fire _ _ => True
             | _ => False end ->
  match run o w with
  | Returns _ w' | Throws _ w' =>
      heap w' = heap w /\ socket (this w') = socket (this w)
  | Untyped => True
  end.
Proof.
  intros Ho.
  set (I := fun w' => heap w' = heap w /\ socket (this w') = socket (this w)).
  assert (Hreq : forall path method body, preserves I (request path method body)).
  { intros path method body w0 [Hh Hs].
    destruct (connected (this w0)) eqn:Hc;
      [|by rewrite (request_not_connected_eq w0 path method body Hc)].
    destruct (socket (this w0)) as [t|] eqn:Ht.
    - rewrite (request_connected_eq w0 t path method body Hc Ht).
      unfold I, after_request; simpl. by rewrite Ht.
    - rewrite (request_unset_eq w0 path method body Hc Ht).
      unfold I; simpl. by rewrite Ht. }
  assert (Hthen : forall p h, preserves I (then_ p h)).
  { intros p h w0 Hw0. unfold then_.
    by destruct (promises w0 !! p) as [[[|r'|e'] hs]|]. }
  assert (Hresp : forall data, preserves I (route_response data)).
  { intros data. unfold route_response.
    destruct (strict_eq_number (index data 0) RESPONSE); [|apply preserves_ret].
    apply preserves_bind; [apply preserves_as_number|]. intros id.
    apply preserves_get_this. intros w0 Hw0.
    destruct (requests (this w0) !! id) as [p|]; [|exact Hw0].
    destruct (index data 2) as [| | |st| | |]; try exact Logic.I.
    simpl as_number. run.
    destruct (resolve_promise_frame p {| status := st; content := index data 3 |}
                (record (Resolve p {| status := st; content := index data 3 |}) w0))
      as (w1 & Hres & Hthis & Hheap & _).
    rewrite (bind_returns _ _ _ _ _ Hres). run. simpl.
    unfold I. simpl. rewrite Hheap, Hthis. exact Hw0. }
  destruct o; try done; simpl.
  - by apply (kept_observe I).
  - by apply (kept_unobserve I).
  - pose proof (Hreq path method body w (conj eq_refl eq_refl)) as Hk.
    unfold bind. by destruct (request path method body w).
  - by apply (kept_fire I).
Qed.

Lemma tok_run o : preserves transports_ok (run o).
Proof.
  intros w Hw.
  assert (Hext : forall o',
            match o' with Observe _ _ | Unobserve _ | Request _ _ _ | Fire _ _ => True
                        | _ => False end ->
            match run o' w with
            | Returns _ w' | Throws _ w' => transports_ok w'
            | Untyped => True
            end).
  { intros o' Ho'. pose proof (traffic_keeps_transports o' w Ho') as Hk.
    destruct (run o' w) as [? w'|? w'|]; try done;
      destruct Hk as [Hh Hs]; by apply (tok_ext w). }
  destruct o as [path h|path|path method body| |c| |t ev|t v];
    try (by apply Hext); clear Hext.
  - simpl. destruct (socket (this w)) as [t|] eqn:Ht.
    + rewrite (close_eq w t Ht). destruct Hw as [Ha Hb]. split; simpl; [done|].
      intros t' rs'. rewrite list_lookup_alter.
      case_decide as Heq.
      * subst t'. destruct (heap w !! t) as [rs|]; simpl; [|done].
        intros Hrs; inversion Hrs; subst rs'. right. by repeat split.
      * apply Hb.
    + unfold close. rewrite bind_get_this, Ht. exact Hw.
  - simpl. destruct (RiftSocket_new c) as [e|state] eqn:Hnew.
    + rewrite (connect_failure_eq w c e Hnew). by apply (tok_ext w).
    + rewrite (connect_eq w c state Hnew). destruct Hw as [Ha Hb].
      split; simpl.
      * intros t Ht. inversion Ht; subst t. eexists. split.
        -- rewrite lookup_app_r by done. by rewrite Nat.sub_diag.
        -- by repeat split.
      * intros t rs Hrs. apply lookup_app_Some in Hrs as [Hrs|[_ Hrs]];
          [by eapply Hb|].
        destruct (t - length (heap w))%nat; [|done].
        inversion Hrs; subst rs. left. by repeat split.
  - simpl. unfold tryReconnect. rewrite bind_get_this.
    destruct (RiftSocket_new (code (this w))) as [e|state] eqn:Hnew.
    + rewrite (connect_failure_eq w _ e Hnew). by apply (tok_ext w).
    + rewrite (connect_eq w _ state Hnew). destruct Hw as [Ha Hb].
      split; simpl.
      * intros t Ht. inversion Ht; subst t. eexists. split.
        -- rewrite lookup_app_r by done. by rewrite Nat.sub_diag.
        -- by repeat split.
      * intros t rs Hrs. apply lookup_app_Some in Hrs as [Hrs|[_ Hrs]];
          [by eapply Hb|].
        destruct (t - length (heap w))%nat; [|done].
        inversion Hrs; subst rs. left. by repeat split.
  - simpl. destruct Hw as [Ha Hb]. split; simpl.
    + intros t' Ht'. destruct (Ha t' Ht') as (rs & Hrs & Hlive).
      rewrite list_lookup_alter. case_decide.
      * subst. rewrite Hrs. simpl. eexists. split; [done|].
        destruct Hlive as (? & ? & ? & ?). by repeat split.
      * by exists rs.
    + intros t' rs'. rewrite list_lookup_alter. case_decide; [|apply Hb].
      subst t'. destruct (heap w !! t) as [rs|] eqn:Hrs; simpl; [|done].
      intros Heq; inversion Heq; subst rs'.
      destruct (Hb t rs Hrs) as [(?&?&?&?)|(?&?&?&?)];
        [left|right]; by repeat split.
Qed.

Lemma tok_step o : preserves transports_ok (step o).
Proof.
  intros w Hw. unfold step, job. pose proof (tok_run o w Hw) as Hk.
  destruct (run o w); try done; by apply (tok_ext _ _ Hk).
Qed.

Lemma tok_reachable w : reachable w -> transports_ok w.
Proof.
  induction 1 as [|o w w' _ IH Hstep|o w e w' _ IH Hstep].
  - split; simpl; [done|]. intros t rs Hrs. by rewrite lookup_nil in Hrs.
  - pose proof (tok_step o w IH) as Hk. by rewrite Hstep in Hk.
  - pose proof (tok_step o w IH) as Hk. by rewrite Hstep in Hk.
Qed.

(** X20.  Only [close()] silences a transport.  Every job keeps that the
    transport the session owns is live (its three handlers installed,
    not closed) and that every other transport is live or was left by
    [close()] with no handler; so it is in every reachable world.  A
    transport that [connect] has replaced without a [close()] is
    therefore still live: its open event again sets [connected] and
    sends a handshake frame on the transport the session owns now. *)
Theorem transports_stay_live_until_closed :
  (forall w o, transports_ok w ->
     match step o w with
     | Returns _ w' | Throws _ w' => transports_ok w'
     | Untyped => True
     end) /\
  (forall w, reachable w -> transports_ok w) /\
  (forall w t rs tc,
     reachable w -> heap w !! t = Some rs -> closed rs = false ->
     socket (this w) = Some tc ->
     exists w',
       fire t OpenEvent w = Returns tt w' /\
       connected (this w') = true /\
       trace w' = trace w ++ [Send tc handshake_frame]).
Proof.
  split_and!.
  - intros w o Hw. exact (tok_step o w Hw).
  - exact tok_reachable.
  - intros w t rs tc Hreach Hrs Hclosed Htc.
    destruct (tok_each w (tok_reachable w Hreach) t rs Hrs)
      as [(_ & Hon & _)|(Hc & _)]; [|congruence].
    unfold fire. rewrite Hrs, Hon, (on_open_eq w tc Htc).
    eexists. by split_and!.
Qed.

(** *** The only writer that sets [connected] *)




End Further.

(** ** The properties on a concrete session *)

(** Each property is applied below to a session that jobs build from the
    initial world, on the runtime [sample]. *)

#[local] Existing Instance sample.

Lemma sample_distinct : @opcodes_distinct sample.
Proof. apply sample_opcodes_distinct. Qed.

Lemma the_world_reachable os :
  is_Some (run_jobs os initial_World) -> reachable (the_world os).
Proof.
  intros [w Hw]. unfold the_world. rewrite Hw. simpl.
  by apply (run_jobs_reachable os initial_World w reachable_initial).
Qed.

Lemma request_not_connected_throws_witness :
  request "/x" None None initial_World
    = Throws (Error "Not connected.") initial_World.
Proof. apply request_not_connected_throws. reflexivity. Defined.

Lemma malformed_frame_dropped_witness :
  handleWebsocketMessage "{oops" (the_world connected_session)
    = Returns tt (records [Log "{oops was not valid JSON, ignoring."]
                    (the_world connected_session)).
Proof.
  apply (malformed_frame_dropped (the_world connected_session) "{oops").
  reflexivity.
Defined.

Lemma close_event_while_connecting_witness :
  fire 0 (CloseEvent "refused") (the_world [Connect "c"])
    = Returns tt (records [Log "Closed unexpectedly (refused)"]
                    (the_world [Connect "c"]))
  /\ connecting (this (the_world [Connect "c"])) = true.
Proof.
  destruct (close_event_while_connecting (the_world [Connect "c"]) 0
              {| rs_code := "c"; onopen := true; onmessage := true;
                 onclose := true; readyState := 0; closed := false |}
              "refused" eq_refl eq_refl eq_refl) as (Hfire & _ & Hconn).
  split; [exact Hfire|exact Hconn].
Defined.

Lemma close_detaches_then_releases_witness :
  (connecting (this (the_world reconnecting_session)) = true /\
   connected (this (the_world reconnecting_session)) = true /\
   exists w',
     close (the_world reconnecting_session) = Returns tt w' /\
     trace w' = trace (the_world reconnecting_session)
                ++ [Detach 1 Onopen; Detach 1 Onmessage; Detach 1 Onclose;
                    CloseTransport 1] /\
     connecting (this w') = false /\ connected (this w') = false /\
     socket (this w') = None) /\
  close initial_World = Returns tt initial_World.
Proof.
  destruct (close_detaches_then_releases (the_world reconnecting_session))
    as [Hsome _].
  destruct (close_detaches_then_releases initial_World) as [_ Hnone].
  split.
  - split; [reflexivity|]. split; [reflexivity|].
    destruct (Hsome 1%nat eq_refl)
      as (w' & Hclose & Htrace & Hconnecting & Hconnected & Hsocket & _).
    exists w'. split; [exact Hclose|]. split; [exact Htrace|].
    split; [exact Hconnecting|]. split; [exact Hconnected|exact Hsocket].
  - exact (Hnone eq_refl).
Defined.

Lemma update_dispatches_to_matching_witness :
  handleWebsocketMessage (sample_stringify sample_update)
      (the_world observing_session)
    = Returns tt
        (records [Invoke h1 {| status := 200; content := JNull |};
                  Invoke h2 {| status := 200; content := JNull |}]
           (the_world observing_session)).
Proof.
  apply (update_dispatches_to_matching (the_world observing_session)
           (sample_stringify sample_update) "/a" 200 JNull sample_distinct).
  - reflexivity.
  - intros x Hx Hacc. vm_compute in Hx.
    repeat (apply elem_of_cons in Hx as [->|Hx]);
      [reflexivity|reflexivity|discriminate Hacc|by apply elem_of_nil in Hx].
Defined.

Lemma response_completes_pending_once_witness :
  (exists w',
     handleWebsocketMessage (sample_stringify sample_response)
         (the_world observing_session) = Returns tt w' /\
     trace w' = trace (the_world observing_session)
                ++ [Resolve 0 {| status := 200; content := JBool true |}] /\
     requests (this w') !! 0 = None) /\
  handleWebsocketMessage (sample_stringify sample_response)
      (the_world connected_session)
    = Returns tt (the_world connected_session).
Proof.
  destruct (response_completes_pending_once (the_world observing_session)
              (sample_stringify sample_response) 0 200 (JBool true)
              sample_distinct eq_refl) as [Hpending _].
  destruct (response_completes_pending_once (the_world connected_session)
              (sample_stringify sample_response) 0 200 (JBool true)
              sample_distinct eq_refl) as [_ Hnone].
  split.
  - destruct (Hpending 0%nat eq_refl) as (w' & Hrun & Htrace & _ & Hgone & _).
    exists w'. by split_and!.
  - exact (Hnone eq_refl).
Defined.

Lemma handshake_complete_replays_observers_witness :
  exists w',
    handleWebsocketMessage (sample_stringify sample_handshake_complete)
        (the_world late_session) = Returns tt w' /\
    computerName (this w') = "pc"%string /\
    outbox 0 (trace w')
      = [handshake_frame;
         subscribe_frame (MString "/a"); request_frame 0 "/a" None None;
         subscribe_frame (MRegExp starts_with_a);
         subscribe_frame (MString "/b"); request_frame 1 "/b" None None] /\
    requests (this w') !! 1 = Some 1%nat /\
    promises w' !! 1%nat = Some {| pstate := Pending; reactions := [h3] |}.
Proof.
  assert (Hsafe : idCounter (this (the_world late_session))
                  + Z.of_nat (length (exact_handlers
                                        (observers (this (the_world late_session)))))
                  <= MAX_SAFE_INTEGER + 1).
  { vm_compute. discriminate. }
  destruct (handshake_complete_replays_observers (the_world late_session)
              (sample_stringify sample_handshake_complete) "1.0" "pc" "tok" 0
              sample_distinct eq_refl eq_refl eq_refl Hsafe)
    as (w' & Hrun & _ & Hname & _ & _ & Htrace & Hexact).
  destruct (Hexact 2%nat {| matcher := MString "/b"; handler := h3 |} "/b"%string
              eq_refl eq_refl) as (Hreq & Hprom & _).
  exists w'. split_and!; try done. by rewrite Htrace.
Defined.

Lemma observing_session_reachable : reachable (the_world observing_session).
Proof. apply the_world_reachable, is_Some_alt. vm_compute. exact I. Qed.


Lemma open_event_sends_handshake_witness :
  (exists t w1 w2,
     step (Connect "c") (the_world observing_session) = Returns tt w1 /\
     socket (this w1) = Some t /\
     step (Fire t OpenEvent) w1 = Returns tt w2 /\
     connected (this w2) = true /\ connecting (this w2) = false /\
     outbox t (trace w2) = [handshake_frame]) /\
  (exists w',
     fire 0 OpenEvent (the_world released_session)
       = Throws (TypeError "this.socket is not an object") w' /\
     connected (this w') = true /\ connecting (this w') = false /\
     trace w' = trace (the_world released_session)).
Proof.
  destruct open_event_sends_handshake as (_ & Hunset & Hnext).
  split.
  - destruct (Hnext (the_world observing_session) "c"%string 0
                observing_session_reachable eq_refl)
      as (t & w1 & w2 & Hconnect & Hsocket & _ & Hopen & Hc & Hg & _ & Hout).
    exists t, w1, w2.
    split; [exact Hconnect|]. split; [exact Hsocket|]. split; [exact Hopen|].
    split; [exact Hc|]. split; [exact Hg|exact Hout].
  - exact (Hunset (the_world released_session) 0%nat
             {| rs_code := "a"; onopen := true; onmessage := true;
                onclose := true; readyState := 0; closed := false |}
             eq_refl eq_refl eq_refl).
Defined.

Lemma unobserve_removes_and_unsubscribes_witness :
  exists w',
    unobserve "/a" (the_world doubled_session) = Returns tt w' /\
    observers (this w') = [{| matcher := MRegExp starts_with_a; handler := h2 |}] /\
    trace w' = trace (the_world doubled_session)
               ++ [Send 0 (unsubscribe_frame "/a");
                   Send 0 (unsubscribe_frame "/a")].
Proof.
  destruct (unobserve_removes_and_unsubscribes (the_world doubled_session) "/a")
    as (w' & Hrun & Hthis & _ & _ & Hopen & _ & _).
  exists w'. split; [exact Hrun|]. split.
  - rewrite Hthis. reflexivity.
  - exact (Hopen 0%nat eq_refl eq_refl).
Defined.


(** *** Where the prose goes further than the code *)

(** C4 as stated does not hold on a session whose [connected] flag is
    false: of two registered observers with string matchers the first
    gets its SUBSCRIBE frame, then [request] throws; the second observer
    gets no frame and no bootstrap request is recorded. *)
Lemma handshake_complete_while_not_connected :
  connected (this (the_world superseded_session)) = false /\
  socket (this (the_world superseded_session)) = Some 1%nat /\
  length (observers (this (the_world superseded_session))) = 2%nat /\
  exists w',
    handleWebsocketMessage (sample_stringify sample_handshake_complete)
        (the_world superseded_session)
      = Throws (Error "Not connected.") w' /\
    trace w' = trace (the_world superseded_session)
               ++ [Log "Connected to pc"; WithComputerConfig "pc";
                   Send 1 (subscribe_frame (MString "/a"))] /\
    outbox 1 (trace w') = [handshake_frame; subscribe_frame (MString "/a")] /\
    requests (this w') = ∅.
Proof.
  split; [reflexivity|]. split; [reflexivity|]. split; [reflexivity|].
  eexists. split; [vm_compute; reflexivity|].
  split; [reflexivity|]. split; reflexivity.
Qed.

(** C5 as stated does not hold when [connect] is called twice before the
    first transport opens: the open event of transport [0] sends the
    handshake on transport [1], the one [this.socket] refers to, and
    transport [0] is handed nothing. *)
Lemma open_event_of_replaced_transport :
  exists rs w',
    heap (the_world [Connect "a"; Connect "b"]) !! 0%nat = Some rs /\
    onopen rs = true /\
    step (Fire 0 OpenEvent) (the_world [Connect "a"; Connect "b"])
      = Returns tt w' /\
    outbox 0 (trace w') = [] /\
    head (outbox 0 (trace w')) <> Some handshake_frame /\
    outbox 1 (trace w') = [handshake_frame].
Proof.
  eexists. eexists. split; [reflexivity|]. split; [reflexivity|].
  split; [vm_compute; reflexivity|].
  split; [reflexivity|]. split; [discriminate|reflexivity].
Qed.

(** C6 as stated does not hold.  With two observers on the path [/a],
    [unobserve] sends two UNSUBSCRIBE frames although one distinct matcher
    is removed; and on a session whose [connected] flag is true while its
    transport is not open, the observer is removed and no frame is sent. *)
Lemma unobserve_frames_differ_from_claim :
  (connected (this (the_world doubled_session)) = true /\
   distinct_removed "/a" (observers (this (the_world doubled_session)))
     = ["/a"%string] /\
   exists w',
     unobserve "/a" (the_world doubled_session) = Returns tt w' /\
     trace w' = trace (the_world doubled_session)
                ++ [Send 0 (unsubscribe_frame "/a");
                    Send 0 (unsubscribe_frame "/a")] /\
     length (outbox 0 (trace w'))
       <> (length (outbox 0 (trace (the_world doubled_session)))
           + length (distinct_removed "/a"
                       (observers (this (the_world doubled_session)))))%nat) /\
  (connected (this (the_world reconnecting_session)) = true /\
   length (observers (this (the_world reconnecting_session))) = 1%nat /\
   exists w',
     unobserve "/a" (the_world reconnecting_session) = Returns tt w' /\
     observers (this w') = [] /\
     trace w' = trace (the_world reconnecting_session)).
Proof.
  split.
  - split; [reflexivity|]. split; [reflexivity|].
    eexists. split; [vm_compute; reflexivity|].
    split; [reflexivity|]. vm_compute. discriminate.
  - split; [reflexivity|]. split; [reflexivity|].
    eexists. split; [vm_compute; reflexivity|]. split; reflexivity.
Qed.


(** C1 as stated does not hold when the handler of a matching observer
    throws.  Of two observers that match the path [/a], the handler of
    the first throws; [forEach] ends there, the router throws, and the
    handler of the second, a matching observer, is not called. *)
Lemma update_skips_handlers_after_a_throw :
  observers (this (the_world raising_session))
    = [{| matcher := MString "/a"; handler := h3 |};
       {| matcher := MRegExp starts_with_a; handler := h2 |}] /\
  accepts "/a" (MString "/a") = true /\
  accepts "/a" (MRegExp starts_with_a) = true /\
  exists w',
    handleWebsocketMessage (sample_stringify sample_update)
        (the_world raising_session) = Throws (Error "h3") w' /\
    trace w' = trace (the_world raising_session)
               ++ [Invoke h3 {| status := 200; content := JNull |}] /\
    Invoke h2 {| status := 200; content := JNull |} ∉ trace w'.
Proof.
  split; [reflexivity|]. split; [reflexivity|]. split; [reflexivity|].
  eexists. split; [vm_compute; reflexivity|]. split; [reflexivity|].
  intros Hin. vm_compute in Hin.
  repeat (apply elem_of_cons in Hin as [Hin|Hin]; [discriminate Hin|]).
  by apply elem_of_nil in Hin.
Qed.


(** *** The further properties on concrete sessions *)

Lemma replaced_session_reachable : reachable (the_world replaced_session).
Proof. apply the_world_reachable, is_Some_alt. vm_compute. exact I. Qed.

Lemma observing_session_observers :
  observers (this (the_world observing_session))
    = [{| matcher := MString "/a"; handler := h1 |};
       {| matcher := MRegExp starts_with_a; handler := h2 |};
       {| matcher := MString "/b"; handler := h3 |}].
Proof. reflexivity. Qed.

Lemma observe_connected_bootstraps_handler_witness :
  exists w1 w2,
    observe (MString "/a") h1 (the_world connected_session) = Returns tt w1 /\
    trace w1 = trace (the_world connected_session) ++
      [Send 0 (request_frame 0 "/a" None None);
       Send 0 (subscribe_frame (MString "/a"))] /\
    job (handleWebsocketMessage (sample_stringify sample_response)) w1
      = Returns tt w2 /\
    trace w2 = trace w1 ++
      [Resolve 0 {| status := 200; content := JBool true |};
       Invoke h1 {| status := 200; content := JBool true |}].
Proof.
  destruct (observe_connected_bootstraps_handler (the_world connected_session)
              0 "/a" h1 sample_distinct eq_refl eq_refl eq_refl)
    as (w1 & Hobs & Htrace & _ & _ & Hresp).
  destruct (Hresp (sample_stringify sample_response) 200 (JBool true) eq_refl)
    as (w2 & Hjob & Htrace2 & _).
  exists w1, w2. split; [exact Hobs|]. split; [exact Htrace|].
  split; [exact Hjob|exact Htrace2].
Defined.

Lemma observe_then_unobserve_restores_registry_witness :
  exists w1 w2,
    observe (MString "/c") h1 (the_world observing_session) = Returns tt w1 /\
    unobserve "/c" w1 = Returns tt w2 /\
    observers (this w2) = observers (this (the_world observing_session)) /\
    trace w2 = trace w1 ++ [Send 0 (unsubscribe_frame "/c")].
Proof.
  assert (Hobs : observe (MString "/c") h1 (the_world observing_session)
                 = Returns tt (after_observe_string 0 "/c" h1
                                 (the_world observing_session))).
  { vm_compute. reflexivity. }
  destruct (observe_then_unobserve_restores_registry
              (the_world observing_session)
              (after_observe_string 0 "/c" h1 (the_world observing_session))
              "/c" h1) as (w2 & Hun & Hreg & _ & Hopen).
  - intros x Hx. rewrite observing_session_observers in Hx.
    repeat (apply elem_of_cons in Hx as [->|Hx]; [discriminate|]).
    destruct (proj1 (elem_of_nil x) Hx).
  - exact Hobs.
  - eexists; exists w2. split; [exact Hobs|]. split; [exact Hun|].
    split; [exact Hreg|]. exact (Hopen 0%nat eq_refl eq_refl).
Defined.

Lemma duplicate_response_ignored_witness :
  exists w1,
    handleWebsocketMessage (sample_stringify sample_response)
        (the_world observing_session) = Returns tt w1 /\
    handleWebsocketMessage (sample_stringify sample_response) w1
      = Returns tt w1.
Proof.
  exact (duplicate_response_ignored (the_world observing_session)
           (sample_stringify sample_response) 0 200 (JBool true)
           sample_distinct eq_refl).
Defined.

Lemma unrouted_frame_ignored_witness :
  @handleWebsocketMessage stray (sample_stringify stray_frame)
      (the_world observing_session)
    = Returns tt (the_world observing_session).
Proof.
  apply (@unrouted_frame_ignored stray (the_world observing_session)
           (sample_stringify stray_frame) [JNumber 1; JString "/a"]).
  - reflexivity.
  - intros n Hn. inversion Hn; subst n. vm_compute. by split_and!.
Defined.

Lemma update_handler_exception_aborts_dispatch_witness :
  handleWebsocketMessage (sample_stringify sample_update)
      (the_world raising_session)
    = Throws (Error "h3")
        (records [Invoke h3 {| status := 200; content := JNull |}]
           (the_world raising_session)).
Proof.
  apply (update_handler_exception_aborts_dispatch (the_world raising_session)
           (sample_stringify sample_update) "/a" 200 JNull []
           [{| matcher := MRegExp starts_with_a; handler := h2 |}]
           {| matcher := MString "/a"; handler := h3 |} (Error "h3")
           sample_distinct).
  - reflexivity.
  - reflexivity.
  - reflexivity.
  - reflexivity.
  - intros y Hy. destruct (proj1 (elem_of_nil y) Hy).
Defined.

Lemma close_silences_transport_witness :
  exists w1,
    close (the_world connected_session) = Returns tt w1 /\
    fire 0 (MessageEvent (sample_stringify sample_update)) w1 = Returns tt w1.
Proof.
  exact (close_silences_transport (the_world connected_session) 0
           (MessageEvent (sample_stringify sample_update)) eq_refl).
Defined.

Lemma connect_swallows_constructor_failure_witness :
  exists w' w'',
    connect "" (the_world connected_session) = Returns tt w' /\
    connecting (this w') = true /\
    socket (this w') = Some 0%nat /\
    trace w' = trace (the_world connected_session)
               ++ [Log "[-] Error during connect:"; Log "no code"] /\
    fire 0 (CloseEvent "gone") w' = Returns tt w'' /\
    connected (this w'') = true.
Proof.
  destruct (@connect_swallows_constructor_failure sample
              (the_world connected_session) "" (Error "no code") eq_refl)
    as (w' & Hconnect & Hconnecting & _ & Hsocket & _ & _ & Htrace & Hclose).
  destruct (Hclose 0%nat
              {| rs_code := "c"; onopen := true; onmessage := true;
                 onclose := true; readyState := 1; closed := false |}
              "gone"%string eq_refl eq_refl) as (w'' & Hfire & Hconnected).
  exists w', w''. split; [exact Hconnect|]. split; [exact Hconnecting|].
  split; [exact Hsocket|]. split; [exact Htrace|].
  split; [exact Hfire|exact Hconnected].
Defined.

Lemma connect_keeps_previous_transport_witness :
  exists w',
    connect "d" (the_world connected_session) = Returns tt w' /\
    socket (this w') = Some 1%nat /\
    heap w' !! 0%nat
      = Some {| rs_code := "c"; onopen := true; onmessage := true;
                onclose := true; readyState := 1; closed := false |} /\
    connected (this w') = true /\
    trace w' = trace (the_world connected_session).
Proof.
  destruct (@connect_keeps_previous_transport sample
              (the_world connected_session) "d" 0 eq_refl)
    as (w' & Hconnect & Hsocket & _ & Hold & _ & _ & Hconnected & _ & _ & _ & Htrace).
  exists w'. split; [exact Hconnect|]. split; [exact Hsocket|].
  split; [exact (Hold 0%nat _ eq_refl)|]. split; [exact Hconnected|exact Htrace].
Defined.

Lemma tryReconnect_reuses_last_code_witness :
  exists w1,
    connect "c" initial_World = Returns tt w1 /\
    tryReconnect w1 = connect "c" w1.
Proof.
  destruct (tryReconnect_reuses_last_code initial_World "c")
    as (w1 & Hconnect & Hagain & _).
  exists w1. split; [exact Hconnect|exact Hagain].
Defined.

Lemma close_event_of_established_session_witness :
  exists w',
    fire 0 (CloseEvent "bye") (the_world connected_session) = Returns tt w' /\
    this w' = set_connected false (this (the_world connected_session)) /\
    trace w' = trace (the_world connected_session)
               ++ [Log "Connection to host closed."] /\
    request "/x" None None w' = Throws (Error "Not connected.") w'.
Proof.
  destruct (close_event_of_established_session (the_world connected_session) 0
              {| rs_code := "c"; onopen := true; onmessage := true;
                 onclose := true; readyState := 1; closed := false |}
              "bye" eq_refl eq_refl eq_refl)
    as (w' & Hfire & Hthis & _ & _ & Htrace & Hrequest).
  exists w'. split; [exact Hfire|]. split; [exact Hthis|].
  split; [exact Htrace|exact (Hrequest "/x"%string None None)].
Defined.


Lemma handshake_complete_records_identity_witness :
  match handleWebsocketMessage (sample_stringify sample_handshake_complete)
          (the_world superseded_session) with
  | Returns _ w' | Throws _ w' =>
      computerVersion (this w') = "1.0"%string /\
      computerName (this w') = "pc"%string /\
      pushNotificationSubscriptionToken (this w') = "tok"%string /\
      connected (this w') = connected (this (the_world superseded_session)) /\
      connecting (this w') = connecting (this (the_world superseded_session)) /\
      socket (this w') = socket (this (the_world superseded_session)) /\
      code (this w') = code (this (the_world superseded_session)) /\
      observers (this w') = observers (this (the_world superseded_session))
  | Untyped => True
  end.
Proof.
  exact (handshake_complete_records_identity (the_world superseded_session)
           (sample_stringify sample_handshake_complete) "1.0" "pc" "tok"
           sample_distinct eq_refl).
Defined.

Lemma pending_requests_have_pending_promises_witness :
  exists hs w',
    promises (the_world observing_session) !! 0%nat
      = Some {| pstate := Pending; reactions := hs |} /\
    job (handleWebsocketMessage (sample_stringify sample_response))
        (the_world observing_session) = Returns tt w' /\
    promises w' !! 0%nat
      = Some {| pstate := Fulfilled {| status := 200; content := JBool true |};
                reactions := [] |} /\
    trace w' = trace (the_world observing_session) ++
      Resolve 0 {| status := 200; content := JBool true |}
        :: map (fun h => Invoke h {| status := 200; content := JBool true |}) hs.
Proof.
  destruct pending_requests_have_pending_promises as (_ & _ & Hresponse).
  exact (Hresponse (the_world observing_session)
           (sample_stringify sample_response) 0 200 (JBool true) 0%nat
           sample_distinct observing_session_reachable eq_refl eq_refl).
Defined.

Lemma getters_of_a_session_without_transport_witness :
  exists w',
    close (the_world connected_session) = Returns tt w' /\
    @ping sample_view w' = -1 /\ @state sample_view w' = None.
Proof.
  destruct (@getters_of_a_session_without_transport sample_view)
    as (_ & _ & Hclose).
  exact (Hclose (the_world connected_session)).
Defined.

Lemma handshake_replay_stops_when_not_connected_witness :
  handleWebsocketMessage (sample_stringify sample_handshake_complete)
      (the_world unopened_session)
    = Throws (Error "Not connected.")
        (records
           [Send 0 (subscribe_frame (MRegExp starts_with_a));
            Send 0 (subscribe_frame (MString "/a"))]
           (with_identity "1.0" "pc" "tok" (the_world unopened_session))).
Proof.
  destruct (handshake_replay_stops_when_not_connected
              (the_world unopened_session)
              (sample_stringify sample_handshake_complete) "1.0" "pc" "tok" 0
              sample_distinct eq_refl eq_refl eq_refl) as [Hthrows _].
  apply (Hthrows [{| matcher := MRegExp starts_with_a; handler := h2 |}]
           {| matcher := MString "/a"; handler := h1 |}
           [{| matcher := MString "/b"; handler := h1 |}] "/a"%string).
  - reflexivity.
  - intros y Hy. apply list_elem_of_singleton in Hy. subst y.
    exists starts_with_a. reflexivity.
  - reflexivity.
Defined.

Lemma transports_stay_live_until_closed_witness :
  exists w',
    fire 0 OpenEvent (the_world replaced_session) = Returns tt w' /\
    connected (this w') = true /\
    trace w' = trace (the_world replaced_session) ++ [Send 1 handshake_frame].
Proof.
  destruct transports_stay_live_until_closed as (_ & _ & Hlive).
  exact (Hlive (the_world replaced_session) 0%nat
           {| rs_code := "a"; onopen := true; onmessage := true;
              onclose := true; readyState := 0; closed := false |}
           1%nat replaced_session_reachable eq_refl eq_refl eq_refl).
Defined.


